(** * FrontEndGravitySim: the n-body gravity simulation of
      [src/SolarSystemSimulation.tsx]

    The React component keeps four pieces of state ([bodies], [isRunning],
    [timeScale], [size]) and changes them from its animation frame
    ([simulate]) and from its event handlers ([handleCanvasClick],
    [handleReset], the resize drag, the time-scale slider).  Each of them is
    embedded here as a function on that state.

    JavaScript numbers are kept behind the interface [Number], so that the
    component is written once, the way the source reads, and the results
    that use no property of the arithmetic are stated for every number type.
    The numbers the program runs on are IEEE 754 binary64: the instance
    [float], for which every definition computes.  Everything that depends on
    the arithmetic (the force law, the integration step, the seeded velocity,
    what happens with infinities and NaN) is stated and proved on that
    instance, with the operations grouped and rounded as the code has them.
    [Math.atan2], [Math.cos], [Math.sin] and [Math.PI] are a second
    interface, [MathLib], and the results hold for every implementation of
    it; the three calls of [Math.random] of a click are inputs of
    [handleCanvasClick]. *)

From Stdlib Require Import String Bool Arith Lia ZArith QArith List.
From Stdlib Require Import Floats.
Import ListNotations.

Close Scope Q_scope.
Close Scope Z_scope.

Set Implicit Arguments.

(** A decimal float literal denotes the double nearest to it, as in
    JavaScript. *)
Set Warnings "-inexact-float".

(** ** Numbers *)

Declare Scope num_scope.
Delimit Scope num_scope with num.

(** What the component uses of a JavaScript number: decimal literals, the
    four operations, [Math.sqrt] and the comparison [>]. *)
Class Number (num : Type) : Type := {
  literal : Q -> num;
  num_add : num -> num -> num;
  num_sub : num -> num -> num;
  num_mul : num -> num -> num;
  num_div : num -> num -> num;
  Math_sqrt : num -> num;
  num_gt : num -> num -> bool
}.

(** The rest of the [Math] object, which ECMAScript leaves
    implementation-approximated. *)
Class MathLib (num : Type) : Type := {
  Math_atan2 : num -> num -> num;
  Math_cos : num -> num;
  Math_sin : num -> num;
  Math_PI : num
}.

Infix "+" := num_add : num_scope.
Infix "-" := num_sub : num_scope.
Infix "*" := num_mul : num_scope.
Infix "/" := num_div : num_scope.
Infix ">?" := num_gt (at level 70, no associativity) : num_scope.

(** *** IEEE 754 binary64 *)

Definition float_of_Z (z : Z) : float :=
  match z with
  | Z0 => PrimFloat.zero
  | Zpos _ => PrimFloat.of_uint63 (Uint63.of_Z z)
  | Zneg p => PrimFloat.opp (PrimFloat.of_uint63 (Uint63.of_Z (Zpos p)))
  end.

(** A decimal literal denotes the double nearest to it; numerator and
    denominator of the literals of this program are small integers, which
    are exact doubles, and the division rounds their quotient once. *)
Definition float_literal (q : Q) : float :=
  PrimFloat.div (float_of_Z (Qnum q)) (float_of_Z (Zpos (Qden q))).

#[export] Instance float_Number : Number float := {
  literal := float_literal;
  num_add := PrimFloat.add;
  num_sub := PrimFloat.sub;
  num_mul := PrimFloat.mul;
  num_div := PrimFloat.div;
  Math_sqrt := PrimFloat.sqrt;
  num_gt := fun a b => PrimFloat.ltb b a
}.

(** ** Data model *)

(** An element of [tail]: the object literal [{x, y}]. *)
Record Point (num : Type) : Type := mkPoint { px : num; py : num }.

(** [color] is a CSS colour string: a colour name (['yellow']) or the
    template [hsl(${h}, 100%, 50%)] around a number. *)
Inductive Color (num : Type) : Type :=
| ColorName (name : string)
| ColorHsl (hue : num).

(** [interface Body]. *)
Record Body (num : Type) : Type := mkBody {
  x : num;
  y : num;
  vx : num;
  vy : num;
  mass : num;
  radius : num;
  color : Color num;
  isSun : bool;
  tail : list (Point num)
}.

Record Size (num : Type) : Type := mkSize { width : num; height : num }.

(** The four [useState] cells of the component. *)
Record State (num : Type) : Type := mkState {
  bodies : list (Body num);
  isRunning : bool;
  timeScale : num;
  size : Size num
}.

Arguments ColorName {num} name.
Arguments ColorHsl {num} hue.

(** ** The component *)

(** [Array.prototype.slice(-n)]: the last [n] elements, the whole array when
    it has fewer. *)
Definition slice_last {A : Type} (n : nat) (l : list A) : list A :=
  skipn (length l - n) l.

(** An array with the index of each element. *)
Definition indexed {A : Type} (l : list A) : list (nat * A) :=
  combine (seq 0 (length l)) l.

(** The array without its element at index [i]. *)
Fixpoint others {A : Type} (i : nat) (l : list A) {struct l} : list A :=
  match l, i with
  | [], _ => []
  | _ :: t, O => t
  | h :: t, S i' => h :: others i' t
  end.

Section Component.

Context {num : Type} {N : Number num} {M : MathLib num}.
Local Open Scope num_scope.

Definition G : num := literal 100.
Definition baseTimeStep : num := literal 0.02.
Definition tailLength : nat := 100.

(** The object literal [sun] of the [useEffect] on [size] and of
    [handleReset]. *)
Definition sunAt (sz : Size num) : Body num :=
  {| x := width sz / literal 2; y := height sz / literal 2;
     vx := literal 0; vy := literal 0;
     mass := literal 1000; radius := literal 15; color := ColorName "yellow";
     isSun := true; tail := [] |}.

(** The state after mounting: the [useState] defaults, and the [useEffect] on
    [size] has run once. *)
Definition initialState : State num :=
  let sz := {| width := literal 800; height := literal 600 |} in
  {| bodies := [sunAt sz]; isRunning := false; timeScale := literal 1;
     size := sz |}.

(** [setSize] from the resize drag; the [useEffect] on [size] then replaces
    the bodies. *)
Definition setSize (sz : Size num) (st : State num) : State num :=
  {| bodies := [sunAt sz]; isRunning := isRunning st;
     timeScale := timeScale st; size := sz |}.

Definition handleReset (st : State num) : State num :=
  {| bodies := [sunAt (size st)]; isRunning := false;
     timeScale := literal 1; size := size st |}.

(** The slider's [onChange] and the Start/Pause button. *)
Definition setTimeScale (v : num) (st : State num) : State num :=
  {| bodies := bodies st; isRunning := isRunning st; timeScale := v;
     size := size st |}.

Definition toggleRunning (st : State num) : State num :=
  {| bodies := bodies st; isRunning := negb (isRunning st);
     timeScale := timeScale st; size := size st |}.

(** *** [simulate] *)

(** The callback of [bodies.forEach] past its early return: what
    [otherBody] adds to the accumulators [ax] and [ay] of [body]. *)
Definition attract (body : Body num) (acc : num * num)
    (otherBody : Body num) : num * num :=
  let '(ax, ay) := acc in
  let dx := x otherBody - x body in
  let dy := y otherBody - y body in
  let distance := Math_sqrt (dx * dx + dy * dy) in
  if distance >? radius body + radius otherBody then
    let force := (G * mass body * mass otherBody) / (distance * distance) in
    (ax + force * dx / (distance * mass body),
     ay + force * dy / (distance * mass body))
  else (ax, ay).

(** One call of the callback of [bodies.forEach] for the body at index [i],
    on the element [otherBody] at index [j].  Every element of [bodies] is an
    object of its own (each comes from an object literal of its own), so
    [body === otherBody] holds exactly when the two indices agree. *)
Definition accumulate (i : nat) (body : Body num) (acc : num * num)
    (jo : nat * Body num) : num * num :=
  let '(j, otherBody) := jo in
  if Nat.eqb i j then acc else attract body acc otherBody.

(** [ax] and [ay] after the [forEach] loop. *)
Definition acceleration (bs : list (Body num)) (i : nat) (body : Body num)
    : num * num :=
  fold_left (accumulate i body) (indexed bs) (literal 0, literal 0).

(** The callback of [bodies.map]. *)
Definition updateBody (ts : num) (bs : list (Body num))
    (ib : nat * Body num) : Body num :=
  let '(i, body) := ib in
  if isSun body then
    {| x := x body; y := y body; vx := vx body; vy := vy body;
       mass := mass body; radius := radius body; color := color body;
       isSun := isSun body;
       tail := slice_last tailLength
                 (tail body ++ [{| px := x body; py := y body |}]) |}
  else
    let '(ax, ay) := acceleration bs i body in
    let newVx := vx body + ax * baseTimeStep * ts in
    let newVy := vy body + ay * baseTimeStep * ts in
    let newX := x body + newVx * baseTimeStep * ts in
    let newY := y body + newVy * baseTimeStep * ts in
    {| x := newX; y := newY; vx := newVx; vy := newVy;
       mass := mass body; radius := radius body; color := color body;
       isSun := isSun body;
       tail := slice_last tailLength
                 (tail body ++ [{| px := newX; py := newY |}]) |}.

Definition updatedBodies (ts : num) (bs : list (Body num))
    : list (Body num) :=
  map (updateBody ts bs) (indexed bs).

(** One animation frame: [setBodies(updatedBodies)]. *)
Definition simulate (st : State num) : State num :=
  {| bodies := updatedBodies (timeScale st) (bodies st);
     isRunning := isRunning st; timeScale := timeScale st;
     size := size st |}.

(** *** [handleCanvasClick] *)

(** The body a click at canvas coordinates [(clickX, clickY)] creates around
    [sun]; [r1], [r2], [r3] are the values of the three calls of
    [Math.random], in the order of evaluation. *)
Definition newBody (sun : Body num) (clickX clickY r1 r2 r3 : num)
    : Body num :=
  let dx := clickX - x sun in
  let dy := clickY - y sun in
  let distance := Math_sqrt (dx * dx + dy * dy) in
  let speed := Math_sqrt (G * mass sun / distance) * literal 0.8 in
  let angle := Math_atan2 dy dx + Math_PI / literal 2 in
  {| x := clickX; y := clickY;
     vx := speed * Math_cos angle; vy := speed * Math_sin angle;
     mass := literal 1 + r1 * literal 9;
     radius := literal 3 + r2 * literal 5;
     color := ColorHsl (r3 * literal 360);
     isSun := false; tail := [] |}.

Definition handleCanvasClick (clickX clickY r1 r2 r3 : num)
    (st : State num) : State num :=
  match find (fun body => isSun body) (bodies st) with
  | None => st
  | Some sun =>
      {| bodies := bodies st ++ [newBody sun clickX clickY r1 r2 r3];
         isRunning := isRunning st; timeScale := timeScale st;
         size := size st |}
  end.

End Component.

(** ** Runs of the component *)

Section Runs.

Context {num : Type} {N : Number num} {M : MathLib num}.

(** What can happen to the component between two renders.  [Frame] is one
    call of [simulate] (the driver requests frames while [isRunning]; the
    results below hold for every sequence of events, so also for those). *)
Inductive Event : Type :=
| Frame
| Click (clickX clickY r1 r2 r3 : num)
| Reset
| Resize (sz : Size num)
| SetTimeScale (v : num)
| ToggleRunning.

Definition handle (st : State num) (e : Event) : State num :=
  match e with
  | Frame => simulate st
  | Click clickX clickY r1 r2 r3 => handleCanvasClick clickX clickY r1 r2 r3 st
  | Reset => handleReset st
  | Resize sz => setSize sz st
  | SetTimeScale v => setTimeScale v st
  | ToggleRunning => toggleRunning st
  end.

(** The states the component can be in. *)
Inductive reachable : State num -> Prop :=
| reachable_init : reachable initialState
| reachable_handle st e : reachable st -> reachable (handle st e).

(** The state after a sequence of events. *)
Definition run (evs : list Event) (st : State num) : State num :=
  fold_left handle evs st.

(** [handleReset] and a resize replace the bodies; every other event keeps
    the bodies there are. *)
Definition keeps_bodies (e : Event) : bool :=
  match e with
  | Reset | Resize _ => false
  | _ => true
  end.

Definition is_frame (e : Event) : bool :=
  match e with
  | Frame => true
  | _ => false
  end.

Definition position (b : Body num) : Point num :=
  {| px := x b; py := y b |}.

(** The positions the body at index [i] has after each frame of a run, the
    first frame first. *)
Fixpoint history (i : nat) (evs : list Event) (st : State num)
    : list (Point num) :=
  match evs with
  | [] => []
  | e :: evs' =>
      let st' := handle st e in
      (if is_frame e then
         match nth_error (bodies st') i with
         | Some b => [position b]
         | None => []
         end
       else [])
      ++ history i evs' st'
  end.

End Runs.

(** ** Binary64 *)

Module IEEE.

Local Open Scope float_scope.

(** Center-to-center distance of two bodies, as [simulate] computes it. *)
Definition center_distance (body otherBody : Body float) : float :=
  let dx := x otherBody - x body in
  let dy := y otherBody - y body in
  PrimFloat.sqrt (dx * dx + dy * dy).

(** Zero of either sign, a positive number or plus infinity. *)
Definition SFnonneg (f : spec_float) : bool := SFleb (S754_zero false) f.

(** The overlap guard. *)
Definition apart (bi bj : Body float) : bool :=
  radius bi + radius bj <? center_distance bi bj.

(** The contribution of [bj] to the acceleration of [bi] with the products
    grouped as the design writes them: [G * mass_i * mass_j / d^2] times
    [(pos_j - pos_i) / (d * mass_i)]. *)
Definition design_pull (bi bj : Body float) : float * float :=
  let d := center_distance bi bj in
  let force_magnitude := 100 * mass bi * mass bj / (d * d) in
  (force_magnitude * ((x bj - x bi) / (d * mass bi)),
   force_magnitude * ((y bj - y bi) / (d * mass bi))).

(** The design's acceleration of the body [bi] at index [i]: the pulls of
    the other bodies that are apart from it, summed in the order of the
    array. *)
Definition design_acceleration (bs : list (Body float)) (i : nat)
    (bi : Body float) : float * float :=
  fold_left (fun acc bj => (fst acc + fst (design_pull bi bj),
                            snd acc + snd (design_pull bi bj)))
    (filter (apart bi) (others i bs)) (0, 0).

(** The effective time step of the design. *)
Definition dt_eff (st : State float) : float := 0.02 * timeScale st.

(** Mass and radius within what the component creates. *)
Definition well_sized (b : Body float) : bool :=
  (1 <=? mass b) && (mass b <=? 1000)
  && (3 <=? radius b) && (radius b <=? 15).

(** Coordinates of at most [2^500] in absolute value. *)
Definition in_view (b : Body float) : bool :=
  (abs (x b) <=? 0x1p+500) && (abs (y b) <=? 0x1p+500).

Definition in_range (b : Body float) : bool := in_view b && well_sized b.

(** The random draws of a click are in [[0, 1)], as [Math.random] returns
    them. *)
Definition fair (e : @Event float) : bool :=
  match e with
  | Click _ _ r1 r2 _ =>
      (0 <=? r1) && (r1 <? 1) && (0 <=? r2) && (r2 <? 1)
  | _ => true
  end.

End IEEE.

(** ** States for examples *)

Module Demo.

Local Open Scope float_scope.

(** The component after mounting. *)
Definition mounted : State float := initialState.

(** A [Math] object that answers everywhere what an engine answers at the
    arguments of a click on the horizontal line through the sun, on the sun
    or to its right (such as the clicks on (400, 300) and (500, 300) after
    mounting): there [dy = 0] and [dx >= 0], so [atan2(dy, dx) = 0], and
    [cos(PI / 2) = 6.123233995736766e-17], [sin(PI / 2) = 1]. *)
Definition math_at_origin : MathLib float :=
  {| Math_atan2 := fun _ _ => 0%float;
     Math_cos := fun _ => 0x1.1a62633145c07p-54%float;
     Math_sin := fun _ => 1%float;
     Math_PI := 0x1.921fb54442d18p+1%float |}.

(** 101 frames, with a click and a change of the time scale among them. *)
Definition frames : list (@Event float) :=
  repeat Frame 50
  ++ [Click 500%float 300%float 0.5%float 0.5%float 0.5%float;
      SetTimeScale 2%float]
  ++ repeat Frame 51.

Definition sun : Body float := sunAt (size mounted).

(** A click at (500, 300), 100 to the right of the sun, the three random
    draws being 1/2, and the body it creates. *)
Definition clicked : State float :=
  handleCanvasClick (M := math_at_origin) 500 300 0.5 0.5 0.5 mounted.

Definition planet : Body float :=
  newBody (M := math_at_origin) sun 500 300 0.5 0.5 0.5.

(** The same click followed by one frame. *)
Definition orbiting : State float :=
  handle (M := math_at_origin)
    (handle (M := math_at_origin) mounted (Click 500 300 0.5 0.5 0.5)) Frame.

(** The slider at its minimum after the click. *)
Definition slowed : State float := setTimeScale 0.1 clicked.

(** A click at (520, 300) instead. *)
Definition clicked_further : State float :=
  handleCanvasClick (M := math_at_origin) 520 300 0.5 0.5 0.5 mounted.

Definition further : Body float :=
  newBody (M := math_at_origin) sun 520 300 0.5 0.5 0.5.

(** The simulation started, then 101 frames, the slider moved on the
    way. *)
Definition flight : list (@Event float) :=
  [ToggleRunning] ++ repeat Frame 60 ++ [SetTimeScale 0.5]
  ++ repeat Frame 41.

(** A state without a sun; the component is never in it. *)
Definition sunless : State float :=
  {| bodies := []; isRunning := false; timeScale := 1;
     size := {| width := 800; height := 600 |} |}.

End Demo.

(** ** Magnitudes of binary64 numbers *)

(** Bounds on the numbers of the format, used to show that the force loop
    does not overflow.  A finite number of the format is [m * 2^e] with an
    integer [m]; to compare two of them as integers, each is scaled by
    [2^3000]: [P2 e] is [2^e] at that scale, for [e >= -3000]. *)
Module Magnitude.

Local Open Scope Z_scope.

Definition P2 (k : Z) : Z := 2 ^ (k + 3000).

(** The digits that a shift has dropped were not all zero. *)
Definition inexact (mrs : shr_record) : bool := shr_r mrs || shr_s mrs.

(** [|f| <= c * 2^K], for a finite [f]. *)
Definition mag_le (f : spec_float) (c K : Z) : Prop :=
  match f with
  | S754_zero _ => True
  | S754_finite _ m e => -3000 <= e /\ Z.pos m * P2 e <= c * P2 K
  | _ => False
  end.

(** [2^j <= f], for a positive [f], plus infinity included: the leading
    digit of [f] is above position [j]. *)
Definition pos_ge (f : spec_float) (j : Z) : Prop :=
  match f with
  | S754_infinity false => True
  | S754_finite false m e => j < Zdigits2 (Z.pos m) + e
  | _ => False
  end.

(** [c * 2^K <= f], for a positive [f], plus infinity included. *)
Definition pos_above (f : spec_float) (c K : Z) : Prop :=
  match f with
  | S754_infinity false => True
  | S754_finite false m e => -3000 <= e /\ c * P2 K <= Z.pos m * P2 e
  | _ => False
  end.

(** A zero of either sign, a positive number or plus infinity. *)
Definition nonneg (f : spec_float) : Prop :=
  match f with
  | S754_zero _ | S754_infinity false | S754_finite false _ _ => True
  | _ => False
  end.

End Magnitude.

(** ** Drawing *)

(** The calls on the 2D context [ctx] and the assignments to the canvas
    element, in the order the component makes them.  [SetStrokeStyle c s] is
    the assignment of the template string [`${c}${s}`]. *)
Inductive CanvasOp (num : Type) : Type :=
| SetCanvasWidth (w : num)
| SetCanvasHeight (h : num)
| ClearRect (rx ry rw rh : num)
| BeginPath
| MoveTo (mx my : num)
| LineTo (lx ly : num)
| SetStrokeStyle (c : Color num) (suffix : string)
| SetLineWidth (w : num)
| Stroke
| Arc (cx cy r startAngle endAngle : num)
| SetFillStyle (c : Color num)
| Fill.

Arguments BeginPath {num}.
Arguments Stroke {num}.
Arguments Fill {num}.

(** What [simulate] reads of the canvas element. *)
Module Canvas.
Record t (num : Type) : Type := make { width : num; height : num }.
End Canvas.

(** What the handlers read of a mouse event. *)
Record MouseEvent (num : Type) : Type :=
  mkMouseEvent { clientX : num; clientY : num }.

(** What [handleResize] captures at mouse down. *)
Record DragStart (num : Type) : Type := mkDragStart {
  startX : num;
  startY : num;
  startWidth : num;
  startHeight : num
}.

(** A piece of the current path of the 2D context. *)
Inductive Subpath (num : Type) : Type :=
| Polyline (points : list (Point num))
| ArcOf (cx cy r startAngle endAngle : num).

(** What has been done to the canvas: [Stroked] and [Filled] carry the path
    and the styles the context had at the call ([None]: not assigned since
    the context was reset). *)
Inductive Painted (num : Type) : Type :=
| Blank
| Cleared (rx ry rw rh : num)
| Stroked (path : list (Subpath num))
    (style : option (Color num * string)) (width : option num)
| Filled (path : list (Subpath num)) (style : option (Color num)).

Arguments Blank {num}.

(** The state of the 2D context that the component uses. *)
Record Context2D (num : Type) : Type := mkContext2D {
  currentPath : list (Subpath num);
  strokeStyle : option (Color num * string);
  lineWidth : option num;
  fillStyle : option (Color num)
}.

Definition freshContext {num : Type} : Context2D num :=
  {| currentPath := []; strokeStyle := None; lineWidth := None;
     fillStyle := None |}.

Section Drawing.

Context {num : Type} {N : Number num} {M : MathLib num}.
Local Open Scope num_scope.

(** "Render tail": the polyline through the points of the tail, when there
    are at least two. *)
Definition renderTail (body : Body num) : list (CanvasOp num) :=
  if 1 <? length (tail body) then
    match tail body with
    | p0 :: rest =>
        [BeginPath; MoveTo (px p0) (py p0)]
        ++ map (fun p => LineTo (px p) (py p)) rest
        ++ [SetStrokeStyle (color body) "40"; SetLineWidth (literal 2);
            Stroke]
    | [] => []
    end
  else [].

(** "Render body": the filled disk. *)
Definition renderBody (body : Body num) : list (CanvasOp num) :=
  [BeginPath;
   Arc (x body) (y body) (radius body) (literal 0) (literal 2 * Math_PI);
   SetFillStyle (color body); Fill].

(** What [simulate] draws: it clears the canvas and renders the tail and the
    disk of every updated body. *)
Definition simulateDraw (canvas : Canvas.t num) (st : State num)
    : list (CanvasOp num) :=
  ClearRect (literal 0) (literal 0) (Canvas.width canvas)
    (Canvas.height canvas)
  :: flat_map (fun body => renderTail body ++ renderBody body)
       (updatedBodies (timeScale st) (bodies st)).

(** "Render initial state": the disks alone. *)
Definition renderInitial (bs : list (Body num)) : list (CanvasOp num) :=
  flat_map renderBody bs.

(** What the effect on [bodies], [isRunning], [timeScale] and [size] does to
    the canvas when it runs, the canvas and its 2D context being there
    (without them it returns at once): it sizes the canvas and, unless the
    simulation is running (then it only requests a frame), renders the
    initial state. *)
Definition renderEffect (st : State num) : list (CanvasOp num) :=
  [SetCanvasWidth (width (size st)); SetCanvasHeight (height (size st))]
  ++ (if isRunning st then [] else renderInitial (bodies st)).

(** *** What the calls paint *)

(** The current path of the context is a list of subpaths: the points of a
    subpath of straight lines, or an arc.  [lineTo] extends the last subpath
    and, like [moveTo], starts one when the path is empty; [arc] is only
    called on an empty path here, where it adds the arc alone. *)
Fixpoint lineTo (p : Point num) (path : list (Subpath num))
    : list (Subpath num) :=
  match path with
  | [] => [Polyline [p]]
  | [Polyline points] => [Polyline (points ++ [p])]
  | s :: rest => s :: lineTo p rest
  end.

(** The context after a call or an assignment, and what the call paints.
    Assigning [width] or [height] of the canvas clears it and resets its
    context. *)
Definition perform (ctx : Context2D num) (op : CanvasOp num)
    : Context2D num * list (Painted num) :=
  match op with
  | SetCanvasWidth _ | SetCanvasHeight _ => (freshContext, [Blank])
  | ClearRect rx ry rw rh => (ctx, [Cleared rx ry rw rh])
  | BeginPath =>
      ({| currentPath := []; strokeStyle := strokeStyle ctx;
          lineWidth := lineWidth ctx; fillStyle := fillStyle ctx |}, [])
  | MoveTo mx my =>
      ({| currentPath := currentPath ctx ++ [Polyline [{| px := mx; py := my |}]];
          strokeStyle := strokeStyle ctx; lineWidth := lineWidth ctx;
          fillStyle := fillStyle ctx |}, [])
  | LineTo lx ly =>
      ({| currentPath := lineTo {| px := lx; py := ly |} (currentPath ctx);
          strokeStyle := strokeStyle ctx; lineWidth := lineWidth ctx;
          fillStyle := fillStyle ctx |}, [])
  | SetStrokeStyle c suffix =>
      ({| currentPath := currentPath ctx; strokeStyle := Some (c, suffix);
          lineWidth := lineWidth ctx; fillStyle := fillStyle ctx |}, [])
  | SetLineWidth w =>
      ({| currentPath := currentPath ctx; strokeStyle := strokeStyle ctx;
          lineWidth := Some w; fillStyle := fillStyle ctx |}, [])
  | Stroke =>
      (ctx, [Stroked (currentPath ctx) (strokeStyle ctx) (lineWidth ctx)])
  | Arc cx cy r startAngle endAngle =>
      ({| currentPath := currentPath ctx ++ [ArcOf cx cy r startAngle endAngle];
          strokeStyle := strokeStyle ctx; lineWidth := lineWidth ctx;
          fillStyle := fillStyle ctx |}, [])
  | SetFillStyle c =>
      ({| currentPath := currentPath ctx; strokeStyle := strokeStyle ctx;
          lineWidth := lineWidth ctx; fillStyle := Some c |}, [])
  | Fill => (ctx, [Filled (currentPath ctx) (fillStyle ctx)])
  end.

(** The context after a sequence of calls, and what they paint, in order. *)
Fixpoint paint (ops : list (CanvasOp num)) (ctx : Context2D num)
    : Context2D num * list (Painted num) :=
  match ops with
  | [] => (ctx, [])
  | op :: ops' =>
      let '(ctx1, painted1) := perform ctx op in
      let '(ctx2, painted2) := paint ops' ctx1 in
      (ctx2, painted1 ++ painted2)
  end.

(** The disk of a body: a full circle filled with the body's colour. *)
Definition disk (b : Body num) : Painted num :=
  Filled [ArcOf (x b) (y b) (radius b) (literal 0) (literal 2 * Math_PI)]
    (Some (color b)).

(** The trail of a body: the polyline through its tail, oldest point first,
    stroked 2 wide in the body's colour with ["40"] appended. *)
Definition trail (b : Body num) : Painted num :=
  Stroked [Polyline (tail b)] (Some (color b, "40"%string))
    (Some (literal 2)).

(** *** The resize handle *)

Definition handleResize (event : MouseEvent num) (st : State num)
    : DragStart num :=
  {| startX := clientX event; startY := clientY event;
     startWidth := width (size st); startHeight := height (size st) |}.

(** The [mousemove] listener of a drag. *)
Definition doDrag (direction : string) (start : DragStart num)
    (e : MouseEvent num) (st : State num) : State num :=
  if String.eqb direction "se" then
    setSize {| width := startWidth start + clientX e - startX start;
               height := startHeight start + clientY e - startY start |} st
  else st.

(** A drag: mouse down at [event], then the moves [es]. *)
Definition drag (direction : string) (event : MouseEvent num)
    (es : list (MouseEvent num)) (st : State num) : State num :=
  fold_left (fun s e => doDrag direction (handleResize event st) e s) es st.

(** *** Counting *)

(** The number of bodies after a sequence of events, from [n] bodies: a
    click adds one, [handleReset] and a resize leave one. *)
Definition count_bodies (n : nat) (evs : list (@Event num)) : nat :=
  fold_left (fun k e => match e with
                        | Click _ _ _ _ _ => S k
                        | Reset | Resize _ => 1
                        | _ => k
                        end) evs n.

Definition is_resize (e : @Event num) : bool :=
  match e with
  | Resize _ => true
  | _ => false
  end.

End Drawing.

(** ** More states for examples *)

Module Scene.

Local Open Scope float_scope.

(** Mouse down on the resize handle and three moves. *)
Definition grip : MouseEvent float := {| clientX := 816; clientY := 680 |}.
Definition move1 : MouseEvent float := {| clientX := 900.5; clientY := 650 |}.
Definition move2 : MouseEvent float := {| clientX := 700; clientY := 720.25 |}.
Definition move3 : MouseEvent float := {| clientX := 916; clientY := 580 |}.

(** A click at (410, 300), inside the disk of the sun, with the slider then
    at 0.5: the distance of the centers, 10, is below the sum of the radii,
    15 and 5.5. *)
Definition inner : Body float :=
  newBody (M := Demo.math_at_origin) Demo.sun 410 300 0.5 0.5 0.5.

Definition overlapping : State float :=
  setTimeScale 0.5
    (handleCanvasClick (M := Demo.math_at_origin) 410 300 0.5 0.5 0.5
       Demo.mounted).

(** Events of a session. *)
Definition session : list (@Event float) :=
  [Click 500%float 300%float 0.5%float 0.5%float 0.5%float; Frame; Frame;
   SetTimeScale 2%float; ToggleRunning; Frame].

(** Events of a session with a reset. *)
Definition play : list (@Event float) :=
  [Click 500 300 0.5 0.25 0; Frame; ToggleRunning; Reset;
   Click 600 300 0 0.75 0.5; Frame].

End Scene.

(** ** Arrays *)

Section ArrayFacts.

Context {A : Type}.

Lemma nth_error_combine_seq (l : list A) (s i : nat) :
  nth_error (combine (seq s (length l)) l) i
  = option_map (fun a => (s + i, a)) (nth_error l i).
Proof.
  revert s i; induction l as [|a l IH]; intros s [|i]; simpl; trivial.
  - now rewrite Nat.add_0_r.
  - rewrite IH. destruct (nth_error l i); simpl; trivial.
    now rewrite Nat.add_succ_r.
Qed.

Lemma nth_error_indexed (l : list A) (i : nat) :
  nth_error (indexed l) i = option_map (pair i) (nth_error l i).
Proof. unfold indexed. now rewrite nth_error_combine_seq. Qed.

Lemma map_snd_combine_seq (l : list A) (s : nat) :
  map snd (combine (seq s (length l)) l) = l.
Proof.
  revert s; induction l as [|a l IH]; intros s; simpl; trivial.
  now rewrite IH.
Qed.

Lemma length_indexed (l : list A) : length (indexed l) = length l.
Proof.
  unfold indexed. rewrite <- (length_map snd). now rewrite map_snd_combine_seq.
Qed.

Lemma length_slice_last (n : nat) (l : list A) :
  length (slice_last n l) = Nat.min n (length l).
Proof. unfold slice_last. rewrite length_skipn. lia. Qed.

Lemma slice_last_short (n : nat) (l : list A) :
  length l <= n -> slice_last n l = l.
Proof.
  intros H. unfold slice_last.
  replace (length l - n) with 0 by lia. reflexivity.
Qed.

(** Cutting to the last [n] elements before appending changes nothing once
    the result is cut again. *)
Lemma slice_last_app (n : nat) (l l' : list A) :
  slice_last n (slice_last n l ++ l') = slice_last n (l ++ l').
Proof.
  destruct (Nat.le_gt_cases (length l) n) as [Hle|Hgt].
  - now rewrite (slice_last_short l Hle).
  - unfold slice_last at 1 3.
    rewrite !length_app, length_slice_last.
    unfold slice_last.
    replace (length l + length l' - n)
      with ((Nat.min n (length l) + length l' - n) + (length l - n)) by lia.
    rewrite <- skipn_skipn, (skipn_app (length l - n) l l').
    replace (length l - n - length l) with 0 by lia.
    reflexivity.
Qed.

Lemma filter_length_map {B : Type} (f : A -> bool) (g : B -> bool)
    (l : list A) (l' : list B) :
  map f l = map g l' -> length (filter f l) = length (filter g l').
Proof.
  revert l'; induction l as [|a l IH]; intros [|b l'] H; simpl in *;
    try discriminate; trivial.
  injection H as Hh Ht. rewrite Hh.
  destruct (g b); simpl; auto.
Qed.

Lemma find_filter_one (f : A -> bool) (l : list A) :
  length (filter f l) = 1 -> exists a, find f l = Some a.
Proof.
  induction l as [|a l IH]; simpl; [discriminate|].
  destruct (f a); [now exists a|exact IH].
Qed.

End ArrayFacts.

(** ** One frame *)

Section FrameFacts.

Context {num : Type} {N : Number num}.

Lemma nth_error_updatedBodies (ts : num) (bs : list (Body num)) (i : nat) :
  nth_error (updatedBodies ts bs) i
  = option_map (fun b => updateBody ts bs (i, b)) (nth_error bs i).
Proof.
  unfold updatedBodies.
  rewrite nth_error_map, nth_error_indexed.
  now destruct (nth_error bs i).
Qed.

Lemma length_updatedBodies (ts : num) (bs : list (Body num)) :
  length (updatedBodies ts bs) = length bs.
Proof. unfold updatedBodies. now rewrite length_map, length_indexed. Qed.

(** What [...body] copies in both branches of the callback. *)
Lemma updateBody_copies (ts : num) (bs : list (Body num)) (i : nat)
    (b : Body num) :
  mass (updateBody ts bs (i, b)) = mass b
  /\ radius (updateBody ts bs (i, b)) = radius b
  /\ color (updateBody ts bs (i, b)) = color b
  /\ isSun (updateBody ts bs (i, b)) = isSun b.
Proof.
  unfold updateBody.
  destruct (isSun b) eqn:Hs; [|destruct (acceleration bs i b)]; simpl;
    auto.
Qed.

(** The point pushed on the tail is the position the body has after the
    frame, for the sun as for the others. *)
Lemma updateBody_tail (ts : num) (bs : list (Body num)) (i : nat)
    (b : Body num) :
  tail (updateBody ts bs (i, b))
  = slice_last tailLength
      (tail b ++ [position (updateBody ts bs (i, b))]).
Proof.
  unfold updateBody, position.
  destruct (isSun b); [|destruct (acceleration bs i b)]; reflexivity.
Qed.

Lemma updateBody_sun (ts : num) (bs : list (Body num)) (i : nat)
    (b : Body num) :
  isSun b = true ->
  updateBody ts bs (i, b)
  = {| x := x b; y := y b; vx := vx b; vy := vy b; mass := mass b;
       radius := radius b; color := color b; isSun := true;
       tail := slice_last tailLength (tail b ++ [position b]) |}.
Proof. intros H. unfold updateBody. now rewrite H. Qed.

(** The other branch, with the products grouped as the code groups them. *)
Lemma updateBody_moves (ts : num) (bs : list (Body num)) (i : nat)
    (b : Body num) :
  isSun b = false ->
  let ax := fst (acceleration bs i b) in
  let ay := snd (acceleration bs i b) in
  let b' := updateBody ts bs (i, b) in
  (vx b' = vx b + ax * baseTimeStep * ts)%num
  /\ (vy b' = vy b + ay * baseTimeStep * ts)%num
  /\ (x b' = x b + vx b' * baseTimeStep * ts)%num
  /\ (y b' = y b + vy b' * baseTimeStep * ts)%num.
Proof.
  intros H. unfold updateBody. rewrite H.
  destruct (acceleration bs i b) as [ax ay]. simpl. repeat split.
Qed.

Lemma map_isSun_updatedBodies (ts : num) (bs : list (Body num)) :
  map (fun b => isSun b) (updatedBodies ts bs) = map (fun b => isSun b) bs.
Proof.
  unfold updatedBodies. rewrite map_map.
  transitivity (map (fun b : Body num => isSun b) (map snd (indexed bs))).
  - rewrite map_map. apply map_ext. intros [i b]. apply updateBody_copies.
  - unfold indexed. now rewrite map_snd_combine_seq.
Qed.

Lemma tail_bound_updatedBodies (ts : num) (bs : list (Body num)) :
  Forall (fun b => length (tail b) <= tailLength) (updatedBodies ts bs).
Proof.
  unfold updatedBodies. apply Forall_map, Forall_forall. intros [i b] _.
  rewrite updateBody_tail, length_slice_last. apply Nat.le_min_l.
Qed.

(** Past the body's own index the loop calls [attract] on every
    element. *)
Lemma fold_accumulate_after (i : nat) (body : Body num)
    (l : list (Body num)) :
  forall (s : nat) (acc : num * num),
    i < s ->
    fold_left (accumulate i body) (combine (seq s (length l)) l) acc
    = fold_left (attract body) l acc.
Proof.
  induction l as [|o l IH]; intros s acc Hs; trivial.
  simpl. replace (i =? s) with false by (symmetry; apply Nat.eqb_neq; lia).
  apply IH. lia.
Qed.

(** Up to the body's own index it calls [attract] on every element but the
    one at that index. *)
Lemma fold_accumulate_from (i : nat) (body : Body num)
    (l : list (Body num)) :
  forall (s : nat) (acc : num * num),
    s <= i ->
    fold_left (accumulate i body) (combine (seq s (length l)) l) acc
    = fold_left (attract body) (others (i - s) l) acc.
Proof.
  induction l as [|o l IH]; intros s acc Hs; trivial.
  simpl. destruct (Nat.eq_dec i s) as [->|Hne].
  - rewrite Nat.eqb_refl, Nat.sub_diag. apply fold_accumulate_after. lia.
  - replace (i =? s) with false by (symmetry; now apply Nat.eqb_neq).
    replace (i - s) with (S (i - S s)) by lia.
    simpl. apply IH. lia.
Qed.

(** A body never attracts itself. *)
Lemma acceleration_others (bs : list (Body num)) (i : nat)
    (body : Body num) :
  acceleration bs i body
  = fold_left (attract body) (others i bs) (literal 0, literal 0).
Proof.
  unfold acceleration, indexed.
  rewrite fold_accumulate_from by apply Nat.le_0_l.
  now rewrite Nat.sub_0_r.
Qed.

Lemma others_firstn_skipn {A : Type} (i : nat) (l : list A) :
  others i l = firstn i l ++ skipn (S i) l.
Proof.
  revert i; induction l as [|a l IH]; intros [|i]; simpl; trivial.
  now rewrite IH.
Qed.

End FrameFacts.
(** ** Claims on the frame and on the handlers *)

Section ComponentClaims.

Context {num : Type} {N : Number num} {M : MathLib num}.
Local Open Scope num_scope.


(** C8. [handleReset], the effect on [size] after a resize, and mounting each
    leave exactly one body: the sun at the center of the viewport,
    [(width / 2, height / 2)], at rest and with an empty tail.  They are total
    functions: there is no input on which they fail. *)
Theorem reset_single_sun :
  (forall st : State num,
     exists sun,
       bodies (handleReset st) = [sun]
       /\ x sun = width (size st) / literal 2
       /\ y sun = height (size st) / literal 2
       /\ vx sun = literal 0 /\ vy sun = literal 0
       /\ isSun sun = true /\ tail sun = [])
  /\ (forall (w h : num) (st : State num),
        exists sun,
          bodies (setSize {| width := w; height := h |} st) = [sun]
          /\ x sun = w / literal 2 /\ y sun = h / literal 2
          /\ vx sun = literal 0 /\ vy sun = literal 0
          /\ isSun sun = true /\ tail sun = [])
  /\ (exists sun,
        bodies initialState = [sun]
        /\ x sun = literal 800 / literal 2 /\ y sun = literal 600 / literal 2
        /\ vx sun = literal 0 /\ vy sun = literal 0
        /\ isSun sun = true /\ tail sun = []).
Proof.
  repeat split; intros; eexists; repeat split.
Qed.

Lemma suns_handle (st : State num) (e : Event) :
  length (filter (fun b => isSun b) (bodies st)) = 1 ->
  length (filter (fun b => isSun b) (bodies (handle st e))) = 1.
Proof.
  intros H. destruct e; simpl; trivial.
  - rewrite <- H. apply filter_length_map, map_isSun_updatedBodies.
  - unfold handleCanvasClick.
    destruct (find (fun body => isSun body) (bodies st)); trivial.
    simpl. rewrite filter_app, length_app. simpl. lia.
Qed.

Lemma suns_reachable (st : State num) :
  reachable st -> length (filter (fun b => isSun b) (bodies st)) = 1.
Proof.
  intros H. induction H as [|st e _ IH]; [reflexivity|].
  now apply suns_handle.
Qed.

(** C10. [simulate] keeps the number and the order of the bodies: the body at
    each index keeps its mass, radius, colour and [isSun].  A click, in a
    state that has a sun (every reachable state has one), returns the old
    array with one body appended; without a sun it changes nothing. *)
Theorem frame_and_click_frame :
  (forall st : State num,
     length (bodies (simulate st)) = length (bodies st)
     /\ forall i b,
          nth_error (bodies st) i = Some b ->
          exists b',
            nth_error (bodies (simulate st)) i = Some b'
            /\ mass b' = mass b /\ radius b' = radius b
            /\ color b' = color b /\ isSun b' = isSun b)
  /\ (forall (st : State num) (sun : Body num) (clickX clickY r1 r2 r3 : num),
        find (fun body => isSun body) (bodies st) = Some sun ->
        bodies (handleCanvasClick clickX clickY r1 r2 r3 st)
        = bodies st ++ [newBody sun clickX clickY r1 r2 r3])
  /\ (forall (st : State num) (clickX clickY r1 r2 r3 : num),
        reachable st ->
        exists nb,
          bodies (handleCanvasClick clickX clickY r1 r2 r3 st)
          = bodies st ++ [nb])
  /\ (forall (st : State num) (clickX clickY r1 r2 r3 : num),
        find (fun body => isSun body) (bodies st) = None ->
        handleCanvasClick clickX clickY r1 r2 r3 st = st).
Proof.
  split; [|split; [|split]].
  - intros st. split.
    + apply length_updatedBodies.
    + intros i b Hi.
      exists (updateBody (timeScale st) (bodies st) (i, b)). split.
      * simpl. now rewrite nth_error_updatedBodies, Hi.
      * apply updateBody_copies.
  - intros st sun clickX clickY r1 r2 r3 Hsun.
    unfold handleCanvasClick. now rewrite Hsun.
  - intros st clickX clickY r1 r2 r3 Hr.
    destruct (find_filter_one _ _ (suns_reachable Hr)) as [sun Hsun].
    unfold handleCanvasClick. rewrite Hsun. now eexists.
  - intros st clickX clickY r1 r2 r3 Hnone.
    unfold handleCanvasClick. now rewrite Hnone.
Qed.

(** C9. Every reachable state has exactly one body with [isSun] set:
    mounting, [handleReset] and a resize leave one body, the sun; the body a
    click creates has [isSun] false; [simulate] changes no [isSun]. *)
Theorem one_sun :
  (forall st : State num,
     reachable st -> length (filter (fun b => isSun b) (bodies st)) = 1)
  /\ map (fun b => isSun b) (bodies (initialState (num := num))) = [true]
  /\ (forall st : State num,
        map (fun b => isSun b) (bodies (handleReset st)) = [true])
  /\ (forall (sz : Size num) (st : State num),
        map (fun b => isSun b) (bodies (setSize sz st)) = [true])
  /\ (forall (sun : Body num) (clickX clickY r1 r2 r3 : num),
        isSun (newBody sun clickX clickY r1 r2 r3) = false)
  /\ (forall st : State num,
        map (fun b => isSun b) (bodies (simulate st))
        = map (fun b => isSun b) (bodies st)).
Proof.
  repeat split.
  - apply suns_reachable.
  - intros st. apply map_isSun_updatedBodies.
Qed.

Lemma tail_bound_handle (st : State num) (e : Event) :
  Forall (fun b => length (tail b) <= tailLength) (bodies st) ->
  Forall (fun b => length (tail b) <= tailLength) (bodies (handle st e)).
Proof.
  intros H. destruct e; simpl; trivial.
  - apply tail_bound_updatedBodies.
  - unfold handleCanvasClick.
    destruct (find (fun body => isSun body) (bodies st)); trivial.
    simpl. apply Forall_app. split; trivial.
    constructor; [apply Nat.le_0_l|constructor].
  - constructor; [apply Nat.le_0_l|constructor].
  - constructor; [apply Nat.le_0_l|constructor].
Qed.

Lemma tail_bound_run (evs : list Event) (st : State num) :
  Forall (fun b => length (tail b) <= tailLength) (bodies st) ->
  Forall (fun b => length (tail b) <= tailLength) (bodies (run evs st)).
Proof.
  revert st; induction evs as [|e evs IH]; intros st H; trivial.
  apply IH. now apply tail_bound_handle.
Qed.

(** A click keeps the body at every index there is. *)
Lemma nth_error_click (st : State num) (clickX clickY r1 r2 r3 : num)
    (i : nat) (b : Body num) :
  nth_error (bodies st) i = Some b ->
  nth_error (bodies (handleCanvasClick clickX clickY r1 r2 r3 st)) i
  = Some b.
Proof.
  intros Hi. unfold handleCanvasClick.
  destruct (find (fun body => isSun body) (bodies st)); trivial.
  simpl. rewrite nth_error_app1; trivial.
  apply nth_error_Some. now rewrite Hi.
Qed.

(** The tail after a run that keeps the bodies: the old tail followed by the
    positions taken at the frames, cut to the last [tailLength]. *)
Lemma tail_run (evs : list Event) :
  forall (st : State num) (i : nat) (b : Body num),
    forallb keeps_bodies evs = true ->
    nth_error (bodies st) i = Some b ->
    length (tail b) <= tailLength ->
    exists b',
      nth_error (bodies (run evs st)) i = Some b'
      /\ length (history i evs st) = length (filter is_frame evs)
      /\ tail b' = slice_last tailLength (tail b ++ history i evs st).
Proof.
  induction evs as [|e evs IH]; intros st i b Hk Hi Hb.
  - exists b. simpl. rewrite app_nil_r.
    now rewrite (slice_last_short (tail b) Hb).
  - simpl in Hk. apply andb_prop in Hk. destruct Hk as [He Hk].
    change (run (e :: evs) st) with (run evs (handle st e)).
    cbn [history filter]. cbv zeta.
    destruct e; try discriminate He; cbn [is_frame handle].
    + set (b1 := updateBody (timeScale st) (bodies st) (i, b)).
      assert (H1 : nth_error (bodies (simulate st)) i = Some b1).
      { simpl. now rewrite nth_error_updatedBodies, Hi. }
      assert (Hb1 : length (tail b1) <= tailLength).
      { unfold b1. rewrite updateBody_tail, length_slice_last.
        apply Nat.le_min_l. }
      destruct (IH _ _ _ Hk H1 Hb1) as (b' & Hn & Hl & Ht).
      exists b'. rewrite H1. repeat split; trivial.
      * simpl. now rewrite Hl.
      * rewrite Ht. unfold b1 at 1. rewrite updateBody_tail.
        fold b1. now rewrite slice_last_app, <- app_assoc.
    + exact (IH _ _ _ Hk (nth_error_click _ _ _ _ _ _ _ Hi) Hb).
    + exact (IH (setTimeScale v st) _ _ Hk Hi Hb).
    + exact (IH (toggleRunning st) _ _ Hk Hi Hb).
Qed.

(** C3. No tail is ever longer than [tailLength], which is 100: not in a
    reachable state, and not after any sequence of events from a state where
    that holds.  Along a run of frames, clicks and changes of the controls,
    the tail of a body that starts with an empty tail holds the positions
    the body took at the most recent frames, as many as there were and at
    most 100, the oldest first: the positions taken at the frames are some
    older ones followed by the tail, and the point at index [k] of the tail
    is the position taken [length tail - k] frames from the end.  After more
    than [tailLength] frames the tail has exactly [tailLength] points. *)
Theorem tail_bounded_recent :
  tailLength = 100
  /\ (forall st : State num,
        reachable st ->
        Forall (fun b => length (tail b) <= tailLength) (bodies st))
  /\ (forall (st : State num) (evs : list Event),
        Forall (fun b => length (tail b) <= tailLength) (bodies st) ->
        Forall (fun b => length (tail b) <= tailLength)
          (bodies (run evs st)))
  /\ (forall (st : State num) (i : nat) (b : Body num) (evs : list Event),
        forallb keeps_bodies evs = true ->
        nth_error (bodies st) i = Some b ->
        tail b = [] ->
        exists b',
          nth_error (bodies (run evs st)) i = Some b'
          /\ length (history i evs st) = length (filter is_frame evs)
          /\ length (tail b') = Nat.min 100 (length (filter is_frame evs))
          /\ (exists older, history i evs st = older ++ tail b')
          /\ (forall k,
                k < length (tail b') ->
                nth_error (tail b') k
                = nth_error (history i evs st)
                    (length (filter is_frame evs) - length (tail b') + k))
          /\ length (tail b') <= tailLength
          /\ (tailLength < length (filter is_frame evs) ->
              length (tail b') = tailLength)).
Proof.
  split; [reflexivity|]. split; [|split].
  - intros st H. induction H as [|st e _ IH].
    + constructor; [apply Nat.le_0_l|constructor].
    + now apply tail_bound_handle.
  - intros st evs. apply tail_bound_run.
  - intros st i b evs Hk Hi Hb.
    destruct (tail_run evs st i Hk Hi) as (b' & Hn & Hl & Ht).
    { rewrite Hb. apply Nat.le_0_l. }
    rewrite Hb in Ht. simpl in Ht.
    assert (Hlen : length (tail b')
                   = Nat.min 100 (length (filter is_frame evs))).
    { rewrite Ht, length_slice_last, Hl. reflexivity. }
    exists b'. split; [exact Hn|]. split; [exact Hl|].
    split; [exact Hlen|]. split; [|split; [|split]].
    + exists (firstn (length (history i evs st) - tailLength)
                (history i evs st)).
      rewrite Ht. unfold slice_last. symmetry. apply firstn_skipn.
    + intros k Hk'. rewrite Hlen. rewrite Ht at 1. unfold slice_last.
      rewrite nth_error_skipn, Hl. f_equal. unfold tailLength. lia.
    + rewrite Hlen. unfold tailLength. apply Nat.le_min_l.
    + intros Hlong. rewrite Hlen. unfold tailLength in *. lia.
Qed.

End ComponentClaims.

(** ** The guards in binary64 *)

Section IEEEFacts.

Import IEEE.
Local Open Scope float_scope.

Lemma SFleb_SFltb (a b : spec_float) :
  SFleb a b = true -> SFltb b a = false.
Proof.
  unfold SFleb, SFltb.
  destruct a as [sa|sa| |sa ma ea], b as [sb|sb| |sb mb eb]; simpl;
    try (destruct sa); try (destruct sb); simpl; try congruence.
  - rewrite (Z.compare_antisym ea eb).
    change (Pos.compare_cont Eq mb ma) with (Pos.compare mb ma).
    change (Pos.compare_cont Eq ma mb) with (Pos.compare ma mb).
    rewrite (Pos.compare_antisym ma mb).
    destruct (ea ?= eb)%Z; simpl; try congruence.
    destruct (Pos.compare ma mb); simpl; congruence.
  - rewrite (Z.compare_antisym ea eb).
    change (Pos.compare_cont Eq mb ma) with (Pos.compare mb ma).
    change (Pos.compare_cont Eq ma mb) with (Pos.compare ma mb).
    rewrite (Pos.compare_antisym ma mb).
    destruct (ea ?= eb)%Z; simpl; try congruence.
    destruct (Pos.compare ma mb); simpl; congruence.
Qed.

(** [a <= b] excludes [a > b]. *)
Lemma leb_not_gt (a b : float) : (a <=? b) = true -> (b <? a) = false.
Proof. rewrite leb_spec, ltb_spec. apply SFleb_SFltb. Qed.

Lemma SFltb_above_nonneg (s d : spec_float) :
  SFleb (S754_zero false) s = true ->
  SFltb s d = true ->
  SFltb (S754_zero false) d = true.
Proof.
  unfold SFleb, SFltb.
  destruct s as [ss|ss| |ss ms es], d as [sd|sd| |sd md ed]; simpl;
    try (destruct ss); try (destruct sd); simpl; congruence.
Qed.

(** What exceeds a non-negative number is positive. *)
Lemma gt_nonneg_pos (s d : float) :
  (0 <=? s) = true -> (s <? d) = true -> (0 <? d) = true.
Proof. rewrite leb_spec, !ltb_spec. apply SFltb_above_nonneg. Qed.

(** Infinity times anything is infinite or not a number. *)
Lemma mul_infinity_not_finite (c : float) :
  is_finite (infinity * c) = false.
Proof.
  unfold is_finite, is_nan, is_infinity.
  rewrite !eqb_spec, abs_spec, mul_spec.
  change (Prim2SF infinity) with (S754_infinity false).
  destruct (Prim2SF c) as [s|s| |s m e]; try destruct s; reflexivity.
Qed.

(** Rounding a non-negative integer gives a non-negative number. *)
Lemma shr_1_nonneg (mrs : shr_record) :
  (0 <= shr_m mrs)%Z -> (0 <= shr_m (shr_1 mrs))%Z.
Proof.
  destruct mrs as [m r s]. simpl.
  destruct m as [|p|p]; [trivial| |lia].
  destruct p; simpl; lia.
Qed.

Lemma iter_shr_1_nonneg (p : positive) :
  forall mrs,
    (0 <= shr_m mrs)%Z -> (0 <= shr_m (SpecFloat.iter_pos shr_1 p mrs))%Z.
Proof.
  induction p as [p IH|p IH|]; intros mrs H; simpl.
  - apply IH, IH, shr_1_nonneg, H.
  - apply IH, IH, H.
  - apply shr_1_nonneg, H.
Qed.

Lemma shr_fexp_nonneg (m e : Z) (l : location) :
  (0 <= m)%Z -> (0 <= shr_m (fst (shr_fexp prec emax m e l)))%Z.
Proof.
  intros Hm. unfold shr_fexp, shr.
  assert (H0 : (0 <= shr_m (shr_record_of_loc m l))%Z).
  { destruct l as [|[| |]]; exact Hm. }
  destruct (fexp prec emax (Zdigits2 m + e) - e)%Z; simpl; trivial.
  now apply iter_shr_1_nonneg.
Qed.

Lemma round_nearest_even_nonneg (m : Z) (l : location) :
  (0 <= m)%Z -> (0 <= round_nearest_even m l)%Z.
Proof.
  intros Hm. destruct l as [|[| |]]; simpl; try lia.
  destruct (Z.even m); lia.
Qed.

Lemma binary_round_aux_nonneg (m e : Z) (l : location) :
  (0 <= m)%Z -> SFnonneg (binary_round_aux prec emax false m e l) = true.
Proof.
  intros Hm. unfold binary_round_aux.
  pose proof (shr_fexp_nonneg e l Hm) as H1.
  destruct (shr_fexp prec emax m e l) as [mrs' e']. simpl in H1.
  pose proof (shr_fexp_nonneg e' loc_Exact
                (round_nearest_even_nonneg (loc_of_shr_record mrs') H1))
    as H2.
  destruct (shr_fexp prec emax _ e' loc_Exact) as [mrs'' e''].
  simpl in H2.
  destruct (shr_m mrs'') as [|p|p]; [reflexivity| |lia].
  destruct (e'' <=? emax - prec)%Z; reflexivity.
Qed.

Lemma SFadd_nonneg (a b : spec_float) :
  SFnonneg a = true -> SFnonneg b = true -> SFnonneg (SF64add a b) = true.
Proof.
  unfold SFnonneg.
  destruct a as [sa|sa| |sa ma ea], b as [sb|sb| |sb mb eb];
    try destruct sa; try destruct sb; try discriminate; trivial.
  intros _ _. unfold SF64add, SFadd. cbn [cond_Zopp].
  set (ez := Z.min ea eb).
  destruct (fst (shl_align ma ea ez)); destruct (fst (shl_align mb eb ez));
    cbn [Z.add binary_normalize]; unfold binary_round;
    match goal with
    | |- context [shl_align ?a ?b ?c] =>
        destruct (shl_align a b c) as [mz ez']
    end;
    now apply binary_round_aux_nonneg.
Qed.

(** The sum of two non-negative numbers is non-negative. *)
Lemma add_nonneg (a b : float) :
  (0 <=? a) = true -> (0 <=? b) = true -> (0 <=? a + b) = true.
Proof. rewrite !leb_spec, add_spec. apply SFadd_nonneg. Qed.

Lemma finite_cases (a : float) :
  is_finite a = true ->
  (exists s, Prim2SF a = S754_zero s)
  \/ (exists s m e, Prim2SF a = S754_finite s m e).
Proof.
  unfold is_finite, is_nan, is_infinity.
  rewrite !eqb_spec, abs_spec.
  change (Prim2SF infinity) with (S754_infinity false).
  destruct (Prim2SF a) as [s|s| |s m e]; intros H.
  - left. now exists s.
  - now destruct s.
  - discriminate H.
  - right. now exists s, m, e.
Qed.

(** A finite number minus itself is [+0]. *)
Lemma sub_self (a : float) :
  is_finite a = true -> Prim2SF (a - a) = S754_zero false.
Proof.
  intros H. rewrite sub_spec.
  destruct (finite_cases a H) as [[s ->]|(s & m & e & ->)].
  - now destruct s.
  - unfold SF64sub, SFsub. now rewrite Z.sub_diag.
Qed.

Lemma distance_self (a b : float) :
  is_finite a = true ->
  is_finite b = true ->
  Prim2SF (PrimFloat.sqrt ((a - a) * (a - a) + (b - b) * (b - b)))
  = S754_zero false.
Proof.
  intros Ha Hb.
  rewrite sqrt_spec, add_spec, !mul_spec, (sub_self _ Ha), (sub_self _ Hb).
  reflexivity.
Qed.

(** [speed] at distance zero: a positive number divided by [+0] is
    infinite. *)
Lemma speed_at_distance_zero (gm d : float) :
  (0 <? gm) = true ->
  Prim2SF d = S754_zero false ->
  PrimFloat.sqrt (gm / d) * literal 0.8 = infinity.
Proof.
  intros Hgm Hd. apply Prim2SF_inj.
  rewrite mul_spec, sqrt_spec, div_spec, Hd.
  rewrite ltb_spec in Hgm.
  change (Prim2SF 0) with (S754_zero false) in Hgm.
  destruct (Prim2SF gm) as [s|s| |s m e]; try destruct s; try discriminate;
    reflexivity.
Qed.

(** The velocity of the body a click on the sun's own position creates. *)
Lemma newBody_on_sun (M : MathLib float) (sun : Body float)
    (r1 r2 r3 : float) :
  is_finite (x sun) = true ->
  is_finite (y sun) = true ->
  (0 <? G * mass sun) = true ->
  is_finite (vx (newBody sun (x sun) (y sun) r1 r2 r3)) = false
  /\ is_finite (vy (newBody sun (x sun) (y sun) r1 r2 r3)) = false.
Proof.
  intros Hx Hy Hm.
  pose proof (speed_at_distance_zero _ Hm (distance_self _ _ Hx Hy)) as Hs.
  unfold newBody. cbn [vx vy].
  split;
    match goal with
    | |- is_finite (num_mul ?s ?c) = false =>
        change (is_finite (PrimFloat.mul s c) = false);
        replace s with infinity by (symmetry; exact Hs)
    end;
    apply mul_infinity_not_finite.
Qed.

(** [attract] in binary64. *)
Lemma attract_float (body otherBody : Body float) (acc : float * float) :
  attract body acc otherBody
  = let dx := x otherBody - x body in
    let dy := y otherBody - y body in
    let d := center_distance body otherBody in
    if radius body + radius otherBody <? d then
      let force := 100 * mass body * mass otherBody / (d * d) in
      (fst acc + force * dx / (d * mass body),
       snd acc + force * dy / (d * mass body))
    else acc.
Proof. unfold attract. destruct acc as [ax ay]. reflexivity. Qed.

Lemma accumulate_float (i j : nat) (body otherBody : Body float)
    (acc : float * float) :
  i <> j ->
  accumulate i body acc (j, otherBody) = attract body acc otherBody.
Proof.
  intros Hij. apply Nat.eqb_neq in Hij. unfold accumulate. now rewrite Hij.
Qed.
(** The guard of the [forEach] loop: a pair of distinct bodies whose center
    distance is at most the sum of the radii adds nothing; otherwise the pair
    adds its pull, and the distance it divides by is strictly positive,
    provided neither radius is negative. *)
Lemma accumulate_guarded (i j : nat) (body otherBody : Body float)
    (acc : float * float) :
  i <> j ->
  let dx := x otherBody - x body in
  let dy := y otherBody - y body in
  let d := center_distance body otherBody in
  let rsum := radius body + radius otherBody in
  let force := 100 * mass body * mass otherBody / (d * d) in
  ((d <=? rsum) = true -> accumulate i body acc (j, otherBody) = acc)
  /\ ((rsum <? d) = false -> accumulate i body acc (j, otherBody) = acc)
  /\ ((rsum <? d) = true ->
      accumulate i body acc (j, otherBody)
      = (fst acc + force * dx / (d * mass body),
         snd acc + force * dy / (d * mass body)))
  /\ ((rsum <? d) = true ->
      (0 <=? radius body) = true ->
      (0 <=? radius otherBody) = true ->
      (0 <? d) = true).
Proof.
  intros Hij dx dy d rsum force.
  rewrite (accumulate_float body otherBody acc Hij), attract_float.
  cbv zeta. fold d rsum. repeat split.
  - intros Hle. now rewrite (leb_not_gt Hle).
  - now intros ->.
  - now intros ->.
  - intros Hgt H1 H2. exact (gt_nonneg_pos (add_nonneg H1 H2) Hgt).
Qed.

End IEEEFacts.

(** ** Rounding and magnitudes

    What follows is about [SpecFloat], the specification of the
    operations of binary64: rounding to nearest keeps a result within any
    bound that is itself a number of the format. *)

Unset Implicit Arguments.

(** Side conditions on the constants of a bound. *)
Ltac side := solve [apply Z.leb_le; vm_compute; reflexivity | lia].

Section Rounding.

Local Open Scope Z_scope.
Import IEEE Magnitude.

Lemma P2_pos (k : Z) : -3000 <= k -> 0 < P2 k.
Proof. intros H. unfold P2. apply Z.pow_pos_nonneg; lia. Qed.

Lemma P2_add (k n : Z) : -3000 <= k -> 0 <= n -> P2 (k + n) = P2 k * 2 ^ n.
Proof.
  intros Hk Hn. unfold P2.
  replace (k + n + 3000) with (k + 3000 + n) by lia.
  apply Z.pow_add_r; lia.
Qed.

Lemma P2_mul (a b : Z) :
  -3000 <= a -> -3000 <= b -> -3000 <= a + b ->
  P2 a * P2 b = P2 (a + b) * 2 ^ 3000.
Proof.
  intros Ha Hb Hab. unfold P2.
  rewrite <- !Z.pow_add_r by lia. f_equal. lia.
Qed.

Lemma P2_le (a b : Z) : -3000 <= a -> a <= b -> P2 a <= P2 b.
Proof. intros Ha Hab. unfold P2. apply Z.pow_le_mono_r; lia. Qed.

Lemma digits2_pos_spec (p : positive) :
  2 ^ (Z.pos (digits2_pos p) - 1) <= Z.pos p < 2 ^ Z.pos (digits2_pos p).
Proof.
  induction p as [p IH|p IH|]; cbn [digits2_pos].
  - rewrite Pos2Z.inj_succ. change (Z.pos p~1) with (2 * Z.pos p + 1).
    replace (Z.succ (Z.pos (digits2_pos p)) - 1)
      with (Z.succ (Z.pos (digits2_pos p) - 1)) by lia.
    rewrite !Z.pow_succ_r by lia.
    revert IH. generalize (2 ^ (Z.pos (digits2_pos p) - 1))
      (2 ^ Z.pos (digits2_pos p)). lia.
  - rewrite Pos2Z.inj_succ. change (Z.pos p~0) with (2 * Z.pos p).
    replace (Z.succ (Z.pos (digits2_pos p)) - 1)
      with (Z.succ (Z.pos (digits2_pos p) - 1)) by lia.
    rewrite !Z.pow_succ_r by lia.
    revert IH. generalize (2 ^ (Z.pos (digits2_pos p) - 1))
      (2 ^ Z.pos (digits2_pos p)). lia.
  - simpl. lia.
Qed.

Lemma Zdigits2_bounds (m : Z) :
  0 < m -> 2 ^ (Zdigits2 m - 1) <= m < 2 ^ Zdigits2 m.
Proof.
  destruct m as [|p|p]; try lia. intros _. apply digits2_pos_spec.
Qed.

Lemma Zdigits2_pos (m : Z) : 0 < m -> 0 < Zdigits2 m.
Proof. destruct m as [|p|p]; simpl; lia. Qed.

Lemma Zdigits2_nonneg (m : Z) : 0 <= m -> 0 <= Zdigits2 m.
Proof. destruct m as [|p|p]; simpl; lia. Qed.

(** The number of digits of a number below [2^k]. *)
Lemma Zdigits2_le (m k : Z) : 0 <= m -> 0 <= k -> m < 2 ^ k -> Zdigits2 m <= k.
Proof.
  intros Hm Hk H.
  destruct (Z.eq_dec m 0) as [->|Hne]; [simpl; lia|].
  destruct (Zdigits2_bounds m) as [Hl _]; [lia|].
  destruct (Z_le_gt_dec (Zdigits2 m) k) as [|Hgt]; trivial.
  assert (2 ^ k <= 2 ^ (Zdigits2 m - 1)) by (apply Z.pow_le_mono_r; lia).
  lia.
Qed.

(** The number of digits of a number from [2^k] on. *)
Lemma Zdigits2_gt (m k : Z) : 0 <= k -> 2 ^ k <= m -> k < Zdigits2 m.
Proof.
  intros Hk H.
  assert (Hm : 0 < m) by (pose proof (Z.pow_pos_nonneg 2 k); lia).
  destruct (Zdigits2_bounds m Hm) as [_ Hu].
  destruct (Z_lt_ge_dec k (Zdigits2 m)) as [|Hge]; trivial.
  assert (2 ^ Zdigits2 m <= 2 ^ k).
  { apply Z.pow_le_mono_r; [lia|]. lia. }
  lia.
Qed.

Lemma Zdigits2_mono (a b : Z) : 0 <= a <= b -> Zdigits2 a <= Zdigits2 b.
Proof.
  intros [Ha Hab].
  destruct (Z.eq_dec a 0) as [->|Hne].
  - simpl. apply Zdigits2_nonneg. lia.
  - apply Zdigits2_le; [lia|apply Zdigits2_nonneg; lia|].
    destruct (Zdigits2_bounds b) as [_ Hu]; lia.
Qed.

(** Digits of a shifted number. *)
Lemma Zdigits2_div_pow2 (m n : Z) :
  0 < m -> 0 <= n < Zdigits2 m -> Zdigits2 (m / 2 ^ n) = Zdigits2 m - n.
Proof.
  intros Hm [Hn Hd].
  destruct (Zdigits2_bounds m Hm) as [Hl Hu].
  assert (Hp : 0 < 2 ^ n) by (apply Z.pow_pos_nonneg; lia).
  assert (Hlo : 2 ^ (Zdigits2 m - n - 1) <= m / 2 ^ n).
  { apply Z.div_le_lower_bound; trivial.
    rewrite <- Z.pow_add_r by lia.
    replace (n + (Zdigits2 m - n - 1)) with (Zdigits2 m - 1) by lia.
    exact Hl. }
  assert (Hhi : m / 2 ^ n < 2 ^ (Zdigits2 m - n)).
  { apply Z.div_lt_upper_bound; trivial.
    rewrite <- Z.pow_add_r by lia.
    replace (n + (Zdigits2 m - n)) with (Zdigits2 m) by lia.
    exact Hu. }
  apply Z.le_antisymm.
  - apply Zdigits2_le; [|lia|exact Hhi].
    apply Z.div_pos; lia.
  - assert (Zdigits2 m - n - 1 < Zdigits2 (m / 2 ^ n))
      by (apply Zdigits2_gt; [lia|exact Hlo]).
    lia.
Qed.

Lemma Zdigits2_mul_lower (a b : Z) :
  0 < a -> 0 < b -> Zdigits2 a + Zdigits2 b - 1 <= Zdigits2 (a * b).
Proof.
  intros Ha Hb.
  destruct (Zdigits2_bounds a Ha) as [Hla _].
  destruct (Zdigits2_bounds b Hb) as [Hlb _].
  pose proof (Zdigits2_pos a Ha). pose proof (Zdigits2_pos b Hb).
  assert (2 ^ (Zdigits2 a + Zdigits2 b - 2) <= a * b).
  { replace (Zdigits2 a + Zdigits2 b - 2)
      with ((Zdigits2 a - 1) + (Zdigits2 b - 1)) by lia.
    rewrite Z.pow_add_r by lia.
    apply Z.mul_le_mono_nonneg; trivial; apply Z.pow_nonneg; lia. }
  assert (Zdigits2 a + Zdigits2 b - 2 < Zdigits2 (a * b))
    by (apply Zdigits2_gt; [lia|trivial]).
  lia.
Qed.

(** ** Shifting *)

Lemma shr_1_div (mrs : shr_record) :
  0 <= shr_m mrs -> shr_m (shr_1 mrs) = shr_m mrs / 2.
Proof.
  destruct mrs as [m r s]. cbn [shr_m]. intros Hm.
  destruct m as [|p|p]; [reflexivity| |lia].
  destruct p as [p|p|]; cbn [shr_1 shr_m].
  - change (Z.pos p~1) with (2 * Z.pos p + 1).
    apply Z.div_unique with 1; lia.
  - change (Z.pos p~0) with (2 * Z.pos p).
    apply Z.div_unique with 0; lia.
  - reflexivity.
Qed.

Lemma shr_1_exact (mrs : shr_record) (q : Z) :
  0 <= q -> inexact mrs = false -> shr_m mrs = 2 * q ->
  inexact (shr_1 mrs) = false /\ shr_m (shr_1 mrs) = q.
Proof.
  destruct mrs as [m r s]. unfold inexact. cbn [shr_m shr_r shr_s].
  intros Hq Hi Hm. apply orb_false_elim in Hi. destruct Hi as [-> ->].
  destruct m as [|p|p]; [|destruct p as [p|p|]|]; cbn; split; trivial; lia.
Qed.

Lemma iter_shr_1_div (p : positive) :
  forall mrs,
    0 <= shr_m mrs ->
    shr_m (SpecFloat.iter_pos shr_1 p mrs) = shr_m mrs / 2 ^ Z.pos p.
Proof.
  assert (Hnn : forall mrs, 0 <= shr_m mrs -> 0 <= shr_m (shr_1 mrs)).
  { intros mrs H. rewrite shr_1_div by trivial. apply Z.div_pos; lia. }
  induction p as [p IH|p IH|]; intros mrs Hm; cbn [SpecFloat.iter_pos].
  - assert (Hpp : 0 < 2 ^ Z.pos p) by (apply Z.pow_pos_nonneg; lia).
    assert (H1 := Hnn mrs Hm).
    assert (H2 : 0 <= shr_m (SpecFloat.iter_pos shr_1 p (shr_1 mrs))).
    { rewrite IH by trivial. apply Z.div_pos; trivial. }
    rewrite IH, IH, shr_1_div by trivial.
    rewrite !Z.div_div by lia.
    f_equal. replace (Z.pos p~1) with (1 + (Z.pos p + Z.pos p)) by lia.
    rewrite !Z.pow_add_r by lia. reflexivity.
  - assert (Hpp : 0 < 2 ^ Z.pos p) by (apply Z.pow_pos_nonneg; lia).
    assert (H2 : 0 <= shr_m (SpecFloat.iter_pos shr_1 p mrs)).
    { rewrite IH by trivial. apply Z.div_pos; trivial. }
    rewrite IH, IH by trivial.
    rewrite Z.div_div by lia.
    f_equal. replace (Z.pos p~0) with (Z.pos p + Z.pos p) by lia.
    rewrite Z.pow_add_r by lia. reflexivity.
  - rewrite shr_1_div by trivial. reflexivity.
Qed.

Lemma iter_shr_1_exact (p : positive) :
  forall mrs q,
    0 <= q -> inexact mrs = false -> shr_m mrs = q * 2 ^ Z.pos p ->
    inexact (SpecFloat.iter_pos shr_1 p mrs) = false
    /\ shr_m (SpecFloat.iter_pos shr_1 p mrs) = q.
Proof.
  induction p as [p IH|p IH|]; intros mrs q Hq Hi Hm;
    cbn [SpecFloat.iter_pos].
  - assert (Hpp : 0 < 2 ^ Z.pos p) by (apply Z.pow_pos_nonneg; lia).
    destruct (shr_1_exact mrs (q * 2 ^ Z.pos p * 2 ^ Z.pos p))
      as [Hi1 Hm1]; [nia|trivial| |].
    { rewrite Hm. replace (Z.pos p~1) with (1 + (Z.pos p + Z.pos p)) by lia.
      rewrite !Z.pow_add_r by lia. change (2 ^ 1) with 2. ring. }
    destruct (IH (shr_1 mrs) (q * 2 ^ Z.pos p)) as [Hi2 Hm2];
      [nia|trivial|trivial|].
    exact (IH _ q Hq Hi2 Hm2).
  - assert (Hpp : 0 < 2 ^ Z.pos p) by (apply Z.pow_pos_nonneg; lia).
    destruct (IH mrs (q * 2 ^ Z.pos p)) as [Hi2 Hm2]; [nia|trivial| |].
    { rewrite Hm. replace (Z.pos p~0) with (Z.pos p + Z.pos p) by lia.
      rewrite Z.pow_add_r by lia. ring. }
    exact (IH _ q Hq Hi2 Hm2).
  - apply shr_1_exact; trivial. rewrite Hm. change (2 ^ 1) with 2. ring.
Qed.

Lemma loc_of_exact (mrs : shr_record) :
  inexact mrs = false -> loc_of_shr_record mrs = loc_Exact.
Proof.
  destruct mrs as [m r s]. unfold inexact. cbn [shr_r shr_s].
  intros H. apply orb_false_elim in H. destruct H as [-> ->]. reflexivity.
Qed.

Lemma shr_m_record_of_loc (m : Z) (l : location) :
  shr_m (shr_record_of_loc m l) = m.
Proof. destruct l as [|[| |]]; reflexivity. Qed.

Lemma loc_of_record_of_loc (m : Z) (l : location) :
  loc_of_shr_record (shr_record_of_loc m l) = l.
Proof. destruct l as [|[| |]]; reflexivity. Qed.

Lemma round_nearest_even_cases (m : Z) (l : location) :
  round_nearest_even m l = m
  \/ (round_nearest_even m l = m + 1 /\ l <> loc_Exact).
Proof.
  destruct l as [|[| |]]; cbn; auto.
  - destruct (Z.even m); [auto|right; split; [reflexivity|discriminate]].
  - right. split; [reflexivity|discriminate].
Qed.

Lemma fexp_eq (e : Z) : fexp prec emax e = Z.max (e - 53) (-1074).
Proof. reflexivity. Qed.

(** What [shr_fexp] returns: the mantissa shifted to the exponent of the
    format. *)
Lemma shr_fexp_spec (m e : Z) (l : location) :
  0 <= m ->
  let n := fexp prec emax (Zdigits2 m + e) - e in
  (n <= 0 ->
   shr_fexp prec emax m e l = (shr_record_of_loc m l, e))
  /\ (0 < n ->
      exists mrs,
        shr_fexp prec emax m e l = (mrs, e + n)
        /\ shr_m mrs = m / 2 ^ n
        /\ (l = loc_Exact -> forall q, 0 <= q -> m = q * 2 ^ n ->
            loc_of_shr_record mrs = loc_Exact)).
Proof.
  intros Hm n. unfold shr_fexp, shr. fold n. split; intros Hn.
  - destruct n as [|p|p]; try reflexivity. lia.
  - destruct n as [|p|p]; try lia.
    eexists. split; [reflexivity|]. split.
    + rewrite iter_shr_1_div; rewrite shr_m_record_of_loc; trivial.
    + intros -> q Hq Hmq. apply loc_of_exact.
      apply (iter_shr_1_exact p _ q Hq); trivial.
Qed.

(** ** Bounds on the magnitude *)

Lemma digits_of_bound (m e c K : Z) :
  0 < m -> -3000 <= e -> -3000 <= K -> 0 < c ->
  m * P2 e <= c * P2 K ->
  Zdigits2 m + e <= Zdigits2 c + K.
Proof.
  intros Hm He HK Hc H.
  destruct (Zdigits2_bounds m Hm) as [Hl _].
  destruct (Zdigits2_bounds c Hc) as [_ Hu].
  pose proof (Zdigits2_pos m Hm) as Hdm.
  pose proof (Zdigits2_pos c Hc) as Hdc.
  destruct (Z_le_gt_dec (Zdigits2 m + e) (Zdigits2 c + K)) as [|Hgt];
    trivial.
  exfalso.
  assert (Ha : 2 ^ Zdigits2 c * P2 K <= 2 ^ (Zdigits2 m - 1) * P2 e).
  { unfold P2. rewrite <- !Z.pow_add_r by lia.
    apply Z.pow_le_mono_r; lia. }
  pose proof (P2_pos K HK) as HpK. pose proof (P2_pos e He) as Hpe.
  assert (Hb : c * P2 K < 2 ^ Zdigits2 c * P2 K)
    by (apply Z.mul_lt_mono_pos_r; lia).
  assert (Hd : 2 ^ (Zdigits2 m - 1) * P2 e <= m * P2 e)
    by (apply Z.mul_le_mono_nonneg_r; lia).
  lia.
Qed.

Lemma grid_step (m e c K : Z) :
  -3000 <= e <= K -> m * P2 e < c * P2 K -> (m + 1) * P2 e <= c * P2 K.
Proof.
  intros [He HK] H.
  replace K with (e + (K - e)) in * by lia.
  rewrite P2_add in * by lia.
  pose proof (P2_pos e He) as Hp.
  rewrite (Z.mul_comm (P2 e)), Z.mul_assoc in *.
  apply Z.mul_lt_mono_pos_r in H; trivial.
  apply Z.mul_le_mono_nonneg_r; lia.
Qed.

Lemma fexp_le (D : Z) : D <= 1024 -> fexp prec emax D <= 971.
Proof. rewrite fexp_eq. lia. Qed.

Lemma fexp_ge (D : Z) : -1074 <= fexp prec emax D.
Proof. rewrite fexp_eq. lia. Qed.

(** The second half of [binary_round_aux]. *)
Lemma round_finish_le (s : bool) (m e c K : Z) :
  0 <= m -> -3000 <= e <= 971 ->
  0 < c -> -3000 <= K -> Zdigits2 c + K <= 1024 ->
  m * P2 e <= c * P2 K ->
  mag_le
    (let '(mrs, e') := shr_fexp prec emax m e loc_Exact in
     match shr_m mrs with
     | 0 => S754_zero s
     | Z.pos m' =>
         if e' <=? emax - prec then S754_finite s m' e' else S754_infinity s
     | Z.neg _ => S754_nan
     end) c K.
Proof.
  intros Hm He Hc HK HcK H.
  destruct (shr_fexp_spec m e loc_Exact Hm) as [Hle Hgt].
  set (n := fexp prec emax (Zdigits2 m + e) - e) in *.
  destruct (Z_le_gt_dec n 0) as [Hn|Hn].
  - rewrite (Hle Hn). cbn [shr_record_of_loc shr_m].
    destruct m as [|p|p]; [exact I| |lia].
    replace (e <=? emax - prec) with true
      by (symmetry; apply Z.leb_le; change (emax - prec) with 971; lia).
    cbn [mag_le]. split; [lia|exact H].
  - destruct Hgt as (mrs & -> & Hm1 & _); [lia|]. rewrite Hm1.
    assert (Hpn : 0 < 2 ^ n) by (apply Z.pow_pos_nonneg; lia).
    assert (Hq : 0 <= m / 2 ^ n) by (apply Z.div_pos; lia).
    destruct (m / 2 ^ n) as [|p|p] eqn:Eq; [exact I| |lia].
    assert (Hm0 : 0 < m).
    { destruct (Z.eq_dec m 0) as [->|]; [|lia].
      rewrite Z.div_0_l in Eq by lia. discriminate Eq. }
    assert (HD : Zdigits2 m + e <= 1024).
    { pose proof (digits_of_bound m e c K Hm0 (proj1 He) HK Hc H). lia. }
    assert (He' : e + n <= 971).
    { unfold n. pose proof (fexp_le _ HD). lia. }
    replace (e + n <=? emax - prec) with true
      by (symmetry; apply Z.leb_le; change (emax - prec) with 971; lia).
    cbn [mag_le]. split; [lia|].
    rewrite P2_add by lia.
    pose proof (Z.mul_div_le m (2 ^ n) Hpn) as Hfl. rewrite Eq in Hfl.
    pose proof (P2_pos e (proj1 He)) as Hp.
    assert (Z.pos p * (P2 e * 2 ^ n) <= m * P2 e).
    { replace (Z.pos p * (P2 e * 2 ^ n)) with (2 ^ n * Z.pos p * P2 e)
        by ring.
      apply Z.mul_le_mono_nonneg_r; lia. }
    lia.
Qed.

(** Rounding does not exceed a bound that is itself a number of the
    format. *)
Lemma binary_round_aux_le (s : bool) (m e : Z) (l : location) (c K : Z) :
  0 <= m -> -3000 <= e <= 971 ->
  0 < c -> Zdigits2 c <= 53 -> -1074 <= K -> Zdigits2 c + K <= 1024 ->
  m * P2 e <= c * P2 K ->
  (l <> loc_Exact -> m * P2 e < c * P2 K /\ e <= K) ->
  mag_le (binary_round_aux prec emax s m e l) c K.
Proof.
  intros Hm He Hc Hdc HK HcK H Hl.
  unfold binary_round_aux.
  assert (HD : Zdigits2 m + e <= 1024).
  { destruct (Z.eq_dec m 0) as [->|Hne]; [simpl; lia|].
    pose proof (digits_of_bound m e c K). lia. }
  destruct (shr_fexp_spec m e l Hm) as [Hle Hgt].
  set (n := fexp prec emax (Zdigits2 m + e) - e) in *.
  pose proof (P2_pos e (proj1 He)) as Hp.
  destruct (Z_le_gt_dec n 0) as [Hn|Hn].
  - rewrite (Hle Hn).
    rewrite shr_m_record_of_loc, loc_of_record_of_loc.
    apply round_finish_le; trivial; try lia.
    + destruct (round_nearest_even_cases m l) as [->|[-> _]]; lia.
    + destruct (round_nearest_even_cases m l) as [->|[-> Hne]]; trivial.
      destruct (Hl Hne) as [Hlt HeK]. apply grid_step; lia.
  - destruct Hgt as (mrs & -> & Hm1 & Hex); [lia|].
    assert (Hpn : 0 < 2 ^ n) by (apply Z.pow_pos_nonneg; lia).
    assert (Hq : 0 <= m / 2 ^ n) by (apply Z.div_pos; lia).
    assert (He1 : e + n <= 971).
    { unfold n. pose proof (fexp_le _ HD). lia. }
    pose proof (Z.mul_div_le m (2 ^ n) Hpn) as Hfl.
    assert (Hv : m / 2 ^ n * P2 (e + n) <= m * P2 e).
    { rewrite P2_add by lia.
      replace (m / 2 ^ n * (P2 e * 2 ^ n)) with (2 ^ n * (m / 2 ^ n) * P2 e)
        by ring.
      apply Z.mul_le_mono_nonneg_r; lia. }
    apply round_finish_le; trivial; try lia.
    + rewrite Hm1.
      destruct (round_nearest_even_cases (m / 2 ^ n)
                  (loc_of_shr_record mrs)) as [->|[-> _]]; lia.
    + rewrite Hm1.
      destruct (round_nearest_even_cases (m / 2 ^ n)
                  (loc_of_shr_record mrs)) as [->|[-> Hne]]; [lia|].
      (* rounded up: the shifted value is strictly below the bound *)
      assert (Hex' : l = loc_Exact -> m <> m / 2 ^ n * 2 ^ n).
      { intros El Em. apply Hne. exact (Hex El (m / 2 ^ n) Hq Em). }
      assert (HeK : e + n <= K).
      { unfold n. rewrite fexp_eq.
        destruct (Z.eq_dec m 0) as [E0|Hne0].
        - subst m. destruct l as [|c0].
          + exfalso. apply (Hex' eq_refl). now rewrite Z.div_0_l by lia.
          + destruct (Hl ltac:(discriminate)) as [_ HeK]. simpl. lia.
        - pose proof (digits_of_bound m e c K). lia. }
      apply grid_step; [lia|].
      destruct (Z_lt_ge_dec (m / 2 ^ n * P2 (e + n)) (c * P2 K))
        as [|Hge]; trivial.
      exfalso.
      assert (E1 : m / 2 ^ n * P2 (e + n) = m * P2 e) by lia.
      assert (E2 : m * P2 e = c * P2 K) by lia.
      assert (El : l = loc_Exact).
      { destruct l as [|c0]; trivial.
        destruct (Hl ltac:(discriminate)) as [Hlt _]. lia. }
      apply (Hex' El).
      rewrite P2_add in E1 by lia.
      replace (m / 2 ^ n * (P2 e * 2 ^ n)) with (m / 2 ^ n * 2 ^ n * P2 e)
        in E1 by ring.
      apply Z.mul_cancel_r in E1; lia.
Qed.

Lemma round_finish_ge (m e j : Z) :
  0 < m -> -1074 <= j -> j < Zdigits2 m + e ->
  pos_ge
    (let '(mrs, e') := shr_fexp prec emax m e loc_Exact in
     match shr_m mrs with
     | 0 => S754_zero false
     | Z.pos m' =>
         if e' <=? emax - prec
         then S754_finite false m' e' else S754_infinity false
     | Z.neg _ => S754_nan
     end) j.
Proof.
  intros Hm Hj HD.
  destruct (shr_fexp_spec m e loc_Exact (Z.lt_le_incl _ _ Hm)) as [Hle Hgt].
  set (n := fexp prec emax (Zdigits2 m + e) - e) in *.
  destruct (Z_le_gt_dec n 0) as [Hn|Hn].
  - rewrite (Hle Hn). cbn [shr_record_of_loc shr_m].
    destruct m as [|p|p]; try lia.
    destruct (e <=? emax - prec); [exact HD|exact I].
  - destruct Hgt as (mrs & -> & Hm1 & _); [lia|]. rewrite Hm1.
    assert (Hnd : 0 <= n < Zdigits2 m).
    { unfold n in *. rewrite fexp_eq in *. lia. }
    pose proof (Zdigits2_div_pow2 m n Hm Hnd) as Hd.
    destruct (m / 2 ^ n) as [|p|p] eqn:Eq.
    + simpl in Hd. lia.
    + destruct (e + n <=? emax - prec); [|exact I].
      cbn [pos_ge]. lia.
    + assert (0 <= m / 2 ^ n)
        by (apply Z.div_pos; [lia|apply Z.pow_pos_nonneg; lia]).
      lia.
Qed.

(** Rounding keeps the leading digit where it is, or moves it up. *)
Lemma binary_round_aux_ge (m e : Z) (l : location) (j : Z) :
  0 < m -> -1074 <= j -> j < Zdigits2 m + e ->
  pos_ge (binary_round_aux prec emax false m e l) j.
Proof.
  intros Hm Hj HD. unfold binary_round_aux.
  destruct (shr_fexp_spec m e l (Z.lt_le_incl _ _ Hm)) as [Hle Hgt].
  set (n := fexp prec emax (Zdigits2 m + e) - e) in *.
  destruct (Z_le_gt_dec n 0) as [Hn|Hn].
  - rewrite (Hle Hn).
    rewrite shr_m_record_of_loc, loc_of_record_of_loc.
    assert (Hr : m <= round_nearest_even m l)
      by (destruct (round_nearest_even_cases m l) as [->|[-> _]]; lia).
    pose proof (Zdigits2_mono m (round_nearest_even m l)
                  (conj (Z.lt_le_incl _ _ Hm) Hr)).
    apply round_finish_ge; lia.
  - destruct Hgt as (mrs & -> & Hm1 & _); [lia|]. rewrite Hm1.
    assert (Hnd : 0 <= n < Zdigits2 m).
    { unfold n in *. rewrite fexp_eq in *. lia. }
    pose proof (Zdigits2_div_pow2 m n Hm Hnd) as Hd.
    assert (Hq : 0 < m / 2 ^ n).
    { assert (0 <= m / 2 ^ n)
        by (apply Z.div_pos; [lia|apply Z.pow_pos_nonneg; lia]).
      destruct (Z.eq_dec (m / 2 ^ n) 0) as [E|]; [|lia].
      rewrite E in Hd. simpl in Hd. lia. }
    set (m2 := round_nearest_even (m / 2 ^ n) (loc_of_shr_record mrs)).
    assert (Hr : m / 2 ^ n <= m2).
    { unfold m2.
      destruct (round_nearest_even_cases (m / 2 ^ n)
                  (loc_of_shr_record mrs)) as [->|[-> _]]; lia. }
    pose proof (Zdigits2_mono (m / 2 ^ n) m2
                  (conj (Z.lt_le_incl _ _ Hq) Hr)).
    apply round_finish_ge; lia.
Qed.

(** ** Numbers of the format *)

Lemma valid_finite (s : bool) (m : positive) (e : Z) :
  valid_binary (S754_finite s m e) = true ->
  -1074 <= e <= 971
  /\ Zdigits2 (Z.pos m) <= 53
  /\ (-1074 < e -> Zdigits2 (Z.pos m) = 53).
Proof.
  cbn [SpecFloat.valid_binary]. unfold bounded, canonical_mantissa.
  intros H. apply andb_prop in H. destruct H as [Hc Hb].
  apply Z.eqb_eq in Hc. apply Z.leb_le in Hb.
  change (emax - prec) with 971 in Hb. rewrite fexp_eq in Hc.
  cbn [Zdigits2]. lia.
Qed.

Lemma Zdigits2_unique (m k : Z) :
  0 < k -> 2 ^ (k - 1) <= m < 2 ^ k -> Zdigits2 m = k.
Proof.
  intros Hk [Hl Hu].
  assert (Hm : 0 < m) by (pose proof (Z.pow_pos_nonneg 2 (k - 1)); lia).
  pose proof (Zdigits2_le m k ltac:(lia) ltac:(lia) Hu).
  pose proof (Zdigits2_gt m (k - 1) ltac:(lia) Hl).
  lia.
Qed.

Lemma Zdigits2_mul_pow2 (m k : Z) :
  0 < m -> 0 <= k -> Zdigits2 (m * 2 ^ k) = Zdigits2 m + k.
Proof.
  intros Hm Hk.
  destruct (Zdigits2_bounds m Hm) as [Hl Hu].
  pose proof (Zdigits2_pos m Hm) as Hd.
  assert (Hp : 0 < 2 ^ k) by (apply Z.pow_pos_nonneg; lia).
  apply Zdigits2_unique; [lia|].
  replace (Zdigits2 m + k - 1) with (Zdigits2 m - 1 + k) by lia.
  rewrite !Z.pow_add_r by lia. split.
  - apply Z.mul_le_mono_nonneg_r; lia.
  - apply Z.mul_lt_mono_pos_r; lia.
Qed.

Lemma iter_xO (d m : positive) :
  Z.pos (Pos.iter xO m d) = Z.pos m * 2 ^ Z.pos d.
Proof.
  apply (Pos.iter_ind positive xO m
           (fun p a => Z.pos a = Z.pos m * 2 ^ Z.pos p)).
  - change (Z.pos m~0) with (2 * Z.pos m). change (2 ^ 1) with 2. ring.
  - intros p a H. change (Z.pos a~0) with (2 * Z.pos a).
    rewrite H, Pos2Z.inj_succ, Z.pow_succ_r by lia. ring.
Qed.

(** [shl_align] lowers the exponent, keeping the value. *)
Lemma shl_align_spec (m : positive) (e e' : Z) :
  snd (shl_align m e e') = Z.min e e'
  /\ Z.pos (fst (shl_align m e e'))
     = Z.pos m * 2 ^ (e - snd (shl_align m e e')).
Proof.
  unfold shl_align. destruct (e' - e) as [|d|d] eqn:E; cbn [fst snd].
  - split; [lia|]. rewrite Z.sub_diag. change (2 ^ 0) with 1. lia.
  - split; [lia|]. rewrite Z.sub_diag. change (2 ^ 0) with 1. lia.
  - split; [lia|]. rewrite iter_xO. f_equal. f_equal. lia.
Qed.

Lemma shl_align_value (m : positive) (e e' : Z) :
  -3000 <= Z.min e e' ->
  Z.pos (fst (shl_align m e e')) * P2 (snd (shl_align m e e'))
  = Z.pos m * P2 e.
Proof.
  intros H. destruct (shl_align_spec m e e') as [Hs Hm].
  destruct (shl_align m e e') as [m1 e1]. cbn [fst snd] in *.
  assert (E : P2 e = P2 e1 * 2 ^ (e - e1)).
  { rewrite <- P2_add by lia. f_equal. lia. }
  rewrite Hm, E. ring.
Qed.

Lemma shl_align_digits (m : positive) (e e' : Z) :
  Zdigits2 (Z.pos (fst (shl_align m e e'))) + snd (shl_align m e e')
  = Zdigits2 (Z.pos m) + e.
Proof.
  destruct (shl_align_spec m e e') as [Hs Hm].
  rewrite Hm, Zdigits2_mul_pow2 by lia. lia.
Qed.

(** *** Rounding an integer mantissa *)

Lemma binary_round_le (s : bool) (m : positive) (e c K : Z) :
  -1074 <= e <= 971 ->
  0 < c -> Zdigits2 c <= 53 -> -1074 <= K -> Zdigits2 c + K <= 1024 ->
  Z.pos m * P2 e <= c * P2 K ->
  mag_le (binary_round prec emax s m e) c K.
Proof.
  intros He Hc Hdc HK HcK H. unfold binary_round.
  pose proof (shl_align_spec m e (fexp prec emax (Z.pos (digits2_pos m) + e)))
    as [Hs _].
  pose proof (shl_align_value m e
                (fexp prec emax (Z.pos (digits2_pos m) + e))) as Hv.
  pose proof (fexp_ge (Z.pos (digits2_pos m) + e)) as Hf.
  destruct (shl_align m e _) as [mz ez]. cbn [fst snd] in *.
  assert (Hv' : Z.pos mz * P2 ez <= c * P2 K)
    by (rewrite Hv by lia; exact H).
  apply binary_round_aux_le; trivial; try lia.
  intros Hne. now elim Hne.
Qed.

Lemma binary_round_ge (m : positive) (e j : Z) :
  -1074 <= j -> j < Zdigits2 (Z.pos m) + e ->
  pos_ge (binary_round prec emax false m e) j.
Proof.
  intros Hj HD. unfold binary_round.
  pose proof (shl_align_digits m e
                (fexp prec emax (Z.pos (digits2_pos m) + e))) as Hd.
  destruct (shl_align m e _) as [mz ez]. cbn [fst snd] in *.
  apply binary_round_aux_ge; lia.
Qed.

(** *** Products *)

Lemma mag_le_weaken (f : spec_float) (a Ka c K : Z) :
  a * P2 Ka <= c * P2 K -> mag_le f a Ka -> mag_le f c K.
Proof.
  intros H. destruct f as [s|s| |s m e]; cbn [mag_le]; trivial.
  intros [He Hm]. split; lia.
Qed.

Lemma SFmul_le (X Y : spec_float) (a Ka b Kb c K : Z) :
  valid_binary X = true -> valid_binary Y = true ->
  mag_le X a Ka -> mag_le Y b Kb ->
  0 <= a -> 0 <= b -> -3000 <= Ka -> -3000 <= Kb -> -3000 <= Ka + Kb ->
  0 < c -> Zdigits2 c <= 53 -> -1074 <= K -> Zdigits2 c + K <= 1024 ->
  a * b * P2 (Ka + Kb) <= c * P2 K ->
  mag_le (SFmul prec emax X Y) c K.
Proof.
  intros VX VY HX HY Ha Hb HKa HKb HKab Hc Hdc HK HcK Hside.
  destruct X as [sx|sx| |sx mx ex], Y as [sy|sy| |sy my ey];
    cbn [mag_le] in *; try contradiction; try exact I.
  cbn [SFmul].
  destruct (valid_finite _ _ _ VX) as (Hex & Hdx & Hnx).
  destruct (valid_finite _ _ _ VY) as (Hey & Hdy & Hny).
  destruct HX as [_ HX], HY as [_ HY].
  assert (Hv : Z.pos (mx * my) * P2 (ex + ey) <= c * P2 K).
  { pose proof (P2_pos ex ltac:(lia)) as Hpx.
    pose proof (P2_pos ey ltac:(lia)) as Hpy.
    assert (Hprod : Z.pos mx * P2 ex * (Z.pos my * P2 ey)
                    <= a * P2 Ka * (b * P2 Kb))
      by (apply Z.mul_le_mono_nonneg; lia).
    replace (Z.pos mx * P2 ex * (Z.pos my * P2 ey))
      with (Z.pos (mx * my) * (P2 ex * P2 ey)) in Hprod
      by (rewrite Pos2Z.inj_mul; ring).
    replace (a * P2 Ka * (b * P2 Kb)) with (a * b * (P2 Ka * P2 Kb))
      in Hprod by ring.
    rewrite !P2_mul in Hprod by lia.
    rewrite !Z.mul_assoc in Hprod.
    apply Z.mul_le_mono_pos_r in Hprod; [lia|].
    apply Z.pow_pos_nonneg; lia. }
  assert (HD : Zdigits2 (Z.pos (mx * my)) + (ex + ey) <= 1024).
  { pose proof (digits_of_bound (Z.pos (mx * my)) (ex + ey) c K). lia. }
  assert (Hal : ex + ey <= 971).
  { pose proof (Zdigits2_mul_lower (Z.pos mx) (Z.pos my)
                  ltac:(lia) ltac:(lia)) as Hlow.
    rewrite <- Pos2Z.inj_mul in Hlow.
    pose proof (Zdigits2_pos (Z.pos mx) ltac:(lia)).
    pose proof (Zdigits2_pos (Z.pos my) ltac:(lia)).
    lia. }
  apply binary_round_aux_le; trivial; try lia.
  intros Hne. now elim Hne.
Qed.

Lemma SFmul_ge (X Y : spec_float) (j1 j2 : Z) :
  pos_ge X j1 -> pos_ge Y j2 -> -1074 <= j1 + j2 ->
  pos_ge (SFmul prec emax X Y) (j1 + j2).
Proof.
  intros HX HY Hj.
  destruct X as [sx|[|]| |[|] mx ex], Y as [sy|[|]| |[|] my ey];
    cbn [pos_ge] in *; try contradiction; try exact I.
  cbn [SFmul xorb].
  apply binary_round_aux_ge; [lia|lia|].
  pose proof (Zdigits2_mul_lower (Z.pos mx) (Z.pos my)
                ltac:(lia) ltac:(lia)) as Hlow.
  rewrite <- Pos2Z.inj_mul in Hlow. lia.
Qed.

(** *** Quotients *)

Lemma new_location_exact (n : Z) : new_location n 0 = loc_Exact.
Proof.
  unfold new_location, new_location_even, new_location_odd.
  now destruct (Z.even n).
Qed.

Lemma SFdiv_core_binary_spec (m1 e1 m2 e2 : Z) :
  0 < m1 -> 0 < m2 ->
  exists q e' l r,
    SFdiv_core_binary prec emax m1 e1 m2 e2 = (q, e', l)
    /\ e' = Z.min (fexp prec emax (Zdigits2 m1 + e1 - (Zdigits2 m2 + e2)))
              (e1 - e2)
    /\ m1 * 2 ^ (e1 - e2 - e') = m2 * q + r
    /\ 0 <= r < m2 /\ 0 <= q
    /\ (r = 0 -> l = loc_Exact).
Proof.
  intros H1 H2. unfold SFdiv_core_binary.
  set (e' := Z.min (fexp prec emax (Zdigits2 m1 + e1 - (Zdigits2 m2 + e2)))
               (e1 - e2)).
  change (IntDef.Z.min (fexp prec emax (Zdigits2 m1 + e1 - (Zdigits2 m2 + e2)))
            (e1 - e2)) with e'.
  assert (Hs : 0 <= e1 - e2 - e') by (unfold e'; lia).
  set (m' := match e1 - e2 - e' with
             | 0 => m1
             | Z.pos _ => IntDef.Z.shiftl m1 (e1 - e2 - e')
             | Z.neg _ => 0
             end).
  assert (Hm' : m' = m1 * 2 ^ (e1 - e2 - e')).
  { unfold m'. destruct (e1 - e2 - e') as [|p|p] eqn:E.
    - change (2 ^ 0) with 1. lia.
    - change (IntDef.Z.shiftl m1 (Z.pos p)) with (Z.shiftl m1 (Z.pos p)).
      apply Z.shiftl_mul_pow2. lia.
    - lia. }
  pose proof (Z_div_mod m' m2 ltac:(lia)) as Hdm.
  change (IntDef.Z.div_eucl m' m2) with (Z.div_eucl m' m2).
  destruct (Z.div_eucl m' m2) as [q r]. destruct Hdm as [Hq Hr].
  exists q, e', (new_location m2 r), r.
  split; [reflexivity|]. split; [reflexivity|].
  split; [now rewrite <- Hm'|]. split; [exact Hr|]. split.
  - assert (0 <= m') by (rewrite Hm'; apply Z.mul_nonneg_nonneg;
                         [lia|apply Z.pow_nonneg; lia]).
    destruct (Z_lt_ge_dec q 0) as [Hneg|]; [|lia]. exfalso. nia.
  - intros ->. apply new_location_exact.
Qed.

Lemma pow2_lt_of_mul (da dc x y : Z) (a c : Z) :
  0 < a -> 0 < c -> 0 <= x -> 0 <= y ->
  da = Zdigits2 a -> dc = Zdigits2 c ->
  a * 2 ^ x <= c * 2 ^ y -> da + x <= dc + y.
Proof.
  intros Ha Hc Hx Hy -> -> H.
  destruct (Zdigits2_bounds a Ha) as [Hl _].
  destruct (Zdigits2_bounds c Hc) as [_ Hu].
  pose proof (Zdigits2_pos a Ha). pose proof (Zdigits2_pos c Hc).
  destruct (Z_le_gt_dec (Zdigits2 a + x) (Zdigits2 c + y)) as [|Hgt];
    trivial.
  exfalso.
  assert (Hpx : 0 < 2 ^ x) by (apply Z.pow_pos_nonneg; lia).
  assert (Hpy : 0 < 2 ^ y) by (apply Z.pow_pos_nonneg; lia).
  assert (Ha1 : 2 ^ Zdigits2 c * 2 ^ y <= 2 ^ (Zdigits2 a - 1) * 2 ^ x).
  { rewrite <- !Z.pow_add_r by lia. apply Z.pow_le_mono_r; lia. }
  assert (Ha2 : c * 2 ^ y < 2 ^ Zdigits2 c * 2 ^ y)
    by (apply Z.mul_lt_mono_pos_r; lia).
  assert (Ha3 : 2 ^ (Zdigits2 a - 1) * 2 ^ x <= a * 2 ^ x)
    by (apply Z.mul_le_mono_nonneg_r; lia).
  lia.
Qed.

(** A bounded number divided by one that is bounded from below. *)
Lemma SFdiv_le (X Y : spec_float) (a Ka j c K : Z) :
  valid_binary X = true -> valid_binary Y = true ->
  mag_le X a Ka -> pos_ge Y j ->
  0 < a -> -3000 <= Ka -> -3000 <= j ->
  0 < c -> Zdigits2 c <= 53 -> -1074 <= K -> Zdigits2 c + K <= 1024 ->
  a * P2 Ka * 2 ^ 3000 <= c * P2 K * P2 j ->
  mag_le (SFdiv prec emax X Y) c K.
Proof.
  intros VX VY HX HY Ha HKa Hj Hc Hdc HK HcK Hside.
  destruct X as [sx|sx| |sx mx ex], Y as [sy|[|]| |[|] my ey];
    cbn [mag_le pos_ge] in *; try contradiction; try exact I.
  cbn [SFdiv].
  destruct (valid_finite _ _ _ VX) as (Hex & Hdx & Hnx).
  destruct (valid_finite _ _ _ VY) as (Hey & Hdy & Hny).
  destruct HX as [_ HX].
  destruct (SFdiv_core_binary_spec (Z.pos mx) ex (Z.pos my) ey)
    as (q & e' & l & r & -> & He' & Hqr & Hr & Hq & Hl); try lia.
  set (D1 := Zdigits2 (Z.pos mx) + ex) in *.
  set (D2 := Zdigits2 (Z.pos my) + ey) in *.
  (* the digits of the bounds *)
  assert (Hbound : Zdigits2 a + Ka - j <= Zdigits2 c + K).
  { unfold P2 in Hside.
    rewrite <- !Z.mul_assoc, <- !Z.pow_add_r in Hside by lia.
    pose proof (pow2_lt_of_mul (Zdigits2 a) (Zdigits2 c)
                  (Ka + 3000 + 3000) (K + 3000 + (j + 3000)) a c Ha Hc
                  ltac:(lia) ltac:(lia) eq_refl eq_refl Hside).
    lia. }
  assert (HD1 : D1 <= Zdigits2 a + Ka).
  { apply (digits_of_bound (Z.pos mx) ex a Ka); lia. }
  assert (HD : D1 - D2 <= Zdigits2 c + K - 1) by lia.
  pose proof (fexp_ge (D1 - D2)) as Hfg.
  assert (Hfe : fexp prec emax (D1 - D2) <= 971)
    by (apply fexp_le; lia).
  assert (HfK : fexp prec emax (D1 - D2) <= K)
    by (rewrite fexp_eq; lia).
  (* the value of the quotient *)
  pose proof (P2_pos ey ltac:(lia)) as Hpy.
  pose proof (P2_pos e' ltac:(lia)) as Hpe.
  assert (Hy : P2 j <= Z.pos my * P2 ey).
  { destruct (Zdigits2_bounds (Z.pos my) ltac:(lia)) as [Hl2 _].
    pose proof (Zdigits2_pos (Z.pos my) ltac:(lia)).
    apply Z.le_trans with (2 ^ (Zdigits2 (Z.pos my) - 1) * P2 ey).
    - unfold P2. rewrite <- Z.pow_add_r by lia.
      apply Z.pow_le_mono_r; lia.
    - apply Z.mul_le_mono_nonneg_r; lia. }
  assert (Hx : Z.pos mx * 2 ^ (ex - ey - e') * (P2 e' * P2 ey)
               = Z.pos mx * P2 ex * 2 ^ 3000).
  { rewrite P2_mul by lia.
    replace (P2 ex) with (P2 (e' + ey) * 2 ^ (ex - ey - e')).
    - ring.
    - rewrite <- P2_add by lia. f_equal. lia. }
  assert (Hmain : q * P2 e' * (Z.pos my * P2 ey)
                  <= c * P2 K * (Z.pos my * P2 ey)
                  /\ (r <> 0 ->
                      q * P2 e' * (Z.pos my * P2 ey)
                      < c * P2 K * (Z.pos my * P2 ey))).
  { assert (E : q * P2 e' * (Z.pos my * P2 ey)
                = (Z.pos mx * 2 ^ (ex - ey - e') - r) * (P2 e' * P2 ey)).
    { rewrite Hqr. ring. }
    assert (Hpp : 0 < P2 e' * P2 ey) by (apply Z.mul_pos_pos; lia).
    assert (Hup : Z.pos mx * P2 ex * 2 ^ 3000 <= c * P2 K * (Z.pos my * P2 ey)).
    { apply Z.le_trans with (a * P2 Ka * 2 ^ 3000).
      - apply Z.mul_le_mono_nonneg_r; [apply Z.pow_nonneg; lia|exact HX].
      - apply Z.le_trans with (c * P2 K * P2 j); [exact Hside|].
        apply Z.mul_le_mono_nonneg_l; [|exact Hy].
        pose proof (P2_pos K ltac:(lia)). nia. }
    rewrite E, Z.mul_sub_distr_r, Hx. split.
    - assert (0 <= r * (P2 e' * P2 ey)) by nia. lia.
    - intros Hr0. assert (0 < r * (P2 e' * P2 ey)) by nia. lia. }
  destruct Hmain as [Hle Hlt].
  assert (Hpos : 0 < Z.pos my * P2 ey) by lia.
  apply binary_round_aux_le; trivial; try lia.
  - apply Z.mul_le_mono_pos_r in Hle; trivial.
  - intros Hne. split; [|lia].
    assert (Hr0 : r <> 0) by (intros E; apply Hne, Hl, E).
    specialize (Hlt Hr0).
    apply Z.mul_lt_mono_pos_r in Hlt; trivial.
Qed.

(** *** Sums and differences *)

Lemma binary_normalize_le (S e c K : Z) :
  -1074 <= e <= 971 ->
  0 < c -> Zdigits2 c <= 53 -> -1074 <= K -> Zdigits2 c + K <= 1024 ->
  Z.abs S * P2 e <= c * P2 K ->
  mag_le (binary_normalize prec emax S e false) c K.
Proof.
  intros He Hc Hdc HK HcK H.
  destruct S as [|p|p]; cbn [binary_normalize].
  - exact I.
  - apply binary_round_le; trivial.
  - apply binary_round_le; trivial.
Qed.

Lemma aligned_sum_le (sx sy : bool) (mx my : positive) (ex ey : Z)
    (a Ka b Kb c K : Z) (sub : bool) :
  -1074 <= ex <= 971 -> -1074 <= ey <= 971 ->
  Z.pos mx * P2 ex <= a * P2 Ka ->
  Z.pos my * P2 ey <= b * P2 Kb ->
  a * P2 Ka + b * P2 Kb <= c * P2 K ->
  let ez := Z.min ex ey in
  let S := if sub
           then cond_Zopp sx (Z.pos (fst (shl_align mx ex ez)))
                - cond_Zopp sy (Z.pos (fst (shl_align my ey ez)))
           else cond_Zopp sx (Z.pos (fst (shl_align mx ex ez)))
                + cond_Zopp sy (Z.pos (fst (shl_align my ey ez))) in
  Z.abs S * P2 ez <= c * P2 K.
Proof.
  intros Hex Hey HX HY Hside ez S.
  pose proof (shl_align_spec mx ex ez) as [Hsx _].
  pose proof (shl_align_spec my ey ez) as [Hsy _].
  pose proof (shl_align_value mx ex ez ltac:(unfold ez; lia)) as Hvx.
  pose proof (shl_align_value my ey ez ltac:(unfold ez; lia)) as Hvy.
  replace (snd (shl_align mx ex ez)) with ez in Hvx by (unfold ez in *; lia).
  replace (snd (shl_align my ey ez)) with ez in Hvy by (unfold ez in *; lia).
  pose proof (P2_pos ez ltac:(unfold ez; lia)) as Hp.
  assert (Habs : Z.abs S <= Z.pos (fst (shl_align mx ex ez))
                            + Z.pos (fst (shl_align my ey ez))).
  { unfold S. destruct sub, sx, sy; cbn [cond_Zopp]; lia. }
  apply Z.le_trans
    with ((Z.pos (fst (shl_align mx ex ez))
           + Z.pos (fst (shl_align my ey ez))) * P2 ez).
  - apply Z.mul_le_mono_nonneg_r; lia.
  - rewrite Z.mul_add_distr_r, Hvx, Hvy. lia.
Qed.

Lemma SFadd_le (X Y : spec_float) (a Ka b Kb c K : Z) :
  valid_binary X = true -> valid_binary Y = true ->
  mag_le X a Ka -> mag_le Y b Kb ->
  0 <= a -> 0 <= b -> -3000 <= Ka -> -3000 <= Kb ->
  0 < c -> Zdigits2 c <= 53 -> -1074 <= K -> Zdigits2 c + K <= 1024 ->
  a * P2 Ka + b * P2 Kb <= c * P2 K ->
  mag_le (SFadd prec emax X Y) c K.
Proof.
  intros VX VY HX HY Ha Hb HKa HKb Hc Hdc HK HcK Hside.
  pose proof (P2_pos Ka HKa). pose proof (P2_pos Kb HKb).
  assert (Hwa : a * P2 Ka <= c * P2 K) by nia.
  assert (Hwb : b * P2 Kb <= c * P2 K) by nia.
  destruct X as [sx|sx| |sx mx ex], Y as [sy|sy| |sy my ey];
    cbn [mag_le] in *; try contradiction.
  - cbn [SFadd]. destruct sx, sy; exact I.
  - cbn [SFadd mag_le]. split; lia.
  - cbn [SFadd mag_le]. split; lia.
  - cbn [SFadd].
    destruct (valid_finite _ _ _ VX) as (Hex & _).
    destruct (valid_finite _ _ _ VY) as (Hey & _).
    apply binary_normalize_le; trivial; try lia.
    exact (aligned_sum_le sx sy mx my ex ey a Ka b Kb c K false
             Hex Hey (proj2 HX) (proj2 HY) Hside).
Qed.

Lemma SFsub_le (X Y : spec_float) (a Ka b Kb c K : Z) :
  valid_binary X = true -> valid_binary Y = true ->
  mag_le X a Ka -> mag_le Y b Kb ->
  0 <= a -> 0 <= b -> -3000 <= Ka -> -3000 <= Kb ->
  0 < c -> Zdigits2 c <= 53 -> -1074 <= K -> Zdigits2 c + K <= 1024 ->
  a * P2 Ka + b * P2 Kb <= c * P2 K ->
  mag_le (SFsub prec emax X Y) c K.
Proof.
  intros VX VY HX HY Ha Hb HKa HKb Hc Hdc HK HcK Hside.
  pose proof (P2_pos Ka HKa). pose proof (P2_pos Kb HKb).
  assert (Hwa : a * P2 Ka <= c * P2 K) by nia.
  assert (Hwb : b * P2 Kb <= c * P2 K) by nia.
  destruct X as [sx|sx| |sx mx ex], Y as [sy|sy| |sy my ey];
    cbn [mag_le] in *; try contradiction.
  - cbn [SFsub]. destruct sx, sy; exact I.
  - cbn [SFsub mag_le]. split; lia.
  - cbn [SFsub mag_le]. split; lia.
  - cbn [SFsub].
    destruct (valid_finite _ _ _ VX) as (Hex & _).
    destruct (valid_finite _ _ _ VY) as (Hey & _).
    apply binary_normalize_le; trivial; try lia.
    exact (aligned_sum_le sx sy mx my ex ey a Ka b Kb c K true
             Hex Hey (proj2 HX) (proj2 HY) Hside).
Qed.

(** The sum of two positive numbers is not below the first. *)
Lemma SFadd_ge (X Y : spec_float) (j j' : Z) :
  pos_ge X j -> pos_ge Y j' -> -1074 <= j ->
  pos_ge (SFadd prec emax X Y) j.
Proof.
  intros HX HY Hj.
  destruct X as [sx|[|]| |[|] mx ex], Y as [sy|[|]| |[|] my ey];
    cbn [pos_ge] in *; try contradiction; try exact I.
  cbn [SFadd cond_Zopp].
  set (ez := Z.min ex ey).
  pose proof (shl_align_spec mx ex ez) as [Hsx _].
  pose proof (shl_align_digits mx ex ez) as Hdx.
  replace (snd (shl_align mx ex ez)) with ez in Hdx by (unfold ez in *; lia).
  change (Z.pos (fst (shl_align mx ex ez)) + Z.pos (fst (shl_align my ey ez)))
    with (Z.pos (fst (shl_align mx ex ez) + fst (shl_align my ey ez))).
  cbn [binary_normalize].
  apply binary_round_ge; trivial.
  pose proof (Zdigits2_mono (Z.pos (fst (shl_align mx ex ez)))
                (Z.pos (fst (shl_align mx ex ez) + fst (shl_align my ey ez)))
                ltac:(lia)).
  lia.
Qed.

(** *** Comparisons *)

Lemma SFcompare_refl (a : spec_float) :
  a <> S754_nan -> SFcompare a a = Some Eq.
Proof.
  destruct a as [s|s| |s m e]; intros H; cbn [SFcompare]; trivial.
  - now destruct s.
  - congruence.
  - rewrite Z.compare_refl.
    change (Pos.compare_cont Eq m m) with (Pos.compare m m).
    rewrite Pos.compare_refl. now destruct s.
Qed.

(** What is not below a positive number is positive, and as large. *)
Lemma SFcompare_pos_ge (A B : spec_float) (j : Z) :
  valid_binary A = true -> valid_binary B = true ->
  pos_ge A j ->
  SFcompare A B = Some Lt \/ SFcompare A B = Some Eq ->
  pos_ge B j.
Proof.
  intros VA VB HA Hc.
  destruct A as [sa|[|]| |[|] ma ea]; cbn [pos_ge] in HA;
    try contradiction.
  - destruct B as [sb|[|]| |sb mb eb]; cbn [SFcompare] in Hc;
      destruct Hc as [Hc|Hc]; try discriminate Hc;
      try (destruct sb; discriminate Hc); exact I.
  - destruct (valid_finite _ _ _ VA) as (Hea & Hda & Hna).
    destruct B as [sb|[|]| |[|] mb eb]; cbn [SFcompare] in Hc;
      try (destruct Hc as [Hc|Hc]; discriminate Hc); try exact I.
    destruct (valid_finite _ _ _ VB) as (Heb & Hdb & Hnb).
    cbn [pos_ge]. revert Hc.
    destruct (Z.compare_spec ea eb) as [E|E|E]; intros Hc.
    + subst eb.
      change (Pos.compare_cont Eq ma mb) with (Pos.compare ma mb) in Hc.
      assert (Hm : (ma <= mb)%positive).
      { destruct Hc as [Hc|Hc]; injection Hc as Hc.
        - apply Pos.lt_le_incl. now apply Pos.compare_lt_iff.
        - apply Pos.compare_eq in Hc. subst mb. apply Pos.le_refl. }
      pose proof (Zdigits2_mono (Z.pos ma) (Z.pos mb) ltac:(lia)). lia.
    + lia.
    + destruct Hc as [Hc|Hc]; discriminate Hc.
Qed.

(** What is not above a bounded number, in absolute value, is bounded. *)
Lemma SFcompare_mag_le (A B : spec_float) (c K : Z) :
  valid_binary A = true -> valid_binary B = true ->
  mag_le B c K ->
  SFcompare (SFabs A) B = Some Lt \/ SFcompare (SFabs A) B = Some Eq ->
  mag_le A c K.
Proof.
  intros VA VB HB Hc.
  destruct A as [sa|sa| |sa ma ea]; cbn [mag_le SFabs] in *;
    trivial.
  - destruct B as [sb|[|]| |sb mb eb]; cbn [SFcompare mag_le] in *;
      try contradiction; destruct Hc as [Hc|Hc]; try discriminate Hc;
      destruct sb; discriminate Hc.
  - destruct Hc as [Hc|Hc]; discriminate Hc.
  - destruct (valid_finite _ _ _ VA) as (Hea & Hda & Hna).
    destruct B as [sb|sb| |[|] mb eb]; cbn [SFcompare mag_le] in *;
      try contradiction;
      try (destruct Hc as [Hc|Hc]; discriminate Hc).
    destruct (valid_finite _ _ _ VB) as (Heb & Hdb & Hnb).
    destruct HB as [_ HB]. split; [lia|].
    apply Z.le_trans with (Z.pos mb * P2 eb); [|exact HB].
    pose proof (P2_pos ea ltac:(lia)) as Hpa. revert Hc.
    destruct (Z.compare_spec ea eb) as [E|E|E]; intros Hc.
    + subst eb.
      change (Pos.compare_cont Eq ma mb) with (Pos.compare ma mb) in Hc.
      assert (Hm : (ma <= mb)%positive).
      { destruct Hc as [Hc|Hc]; injection Hc as Hc.
        - apply Pos.lt_le_incl. now apply Pos.compare_lt_iff.
        - apply Pos.compare_eq in Hc. subst mb. apply Pos.le_refl. }
      apply Z.mul_le_mono_nonneg_r; lia.
    + destruct (Zdigits2_bounds (Z.pos ma) ltac:(lia)) as [_ Hua].
      destruct (Zdigits2_bounds (Z.pos mb) ltac:(lia)) as [Hlb _].
      rewrite (Hnb ltac:(lia)) in Hlb.
      assert (Hua' : Z.pos ma < 2 ^ 53).
      { apply Z.lt_le_trans with (2 ^ Zdigits2 (Z.pos ma)); trivial.
        apply Z.pow_le_mono_r; lia. }
      apply Z.le_trans with (2 ^ 53 * P2 ea).
      * apply Z.mul_le_mono_nonneg_r; lia.
      * apply Z.le_trans with (2 ^ (53 - 1) * P2 eb).
        -- unfold P2. rewrite <- !Z.pow_add_r by lia.
           apply Z.pow_le_mono_r; lia.
        -- pose proof (P2_pos eb ltac:(lia)).
           apply Z.mul_le_mono_nonneg_r; lia.
    + destruct Hc as [Hc|Hc]; discriminate Hc.
Qed.

(** *** Lower bounds that are numbers of the format *)

(** Shifting to the exponent of the format does not go below such a
    bound. *)
Lemma shift_above (m e c K : Z) :
  0 < m -> -3000 <= e ->
  0 < c -> Zdigits2 c <= 53 -> -1074 <= K ->
  c * P2 K <= m * P2 e ->
  let n := fexp prec emax (Zdigits2 m + e) - e in
  0 < n ->
  0 < m / 2 ^ n /\ c * P2 K <= m / 2 ^ n * P2 (e + n).
Proof.
  intros Hm He Hc Hdc HK H n Hn.
  assert (Hpn : 0 < 2 ^ n) by (apply Z.pow_pos_nonneg; lia).
  pose proof (P2_pos e He) as Hpe.
  pose proof (P2_pos K ltac:(lia)) as HpK.
  pose proof (Zdigits2_pos m Hm) as Hdm.
  destruct (Z_le_gt_dec (e + n) K) as [HeK|HeK].
  - (* the bound is on the grid of the result *)
    assert (E : P2 K = P2 e * 2 ^ n * 2 ^ (K - (e + n))).
    { rewrite <- !P2_add by lia. f_equal. lia. }
    assert (Hp2 : 0 < 2 ^ (K - (e + n))) by (apply Z.pow_pos_nonneg; lia).
    set (J := c * 2 ^ (K - (e + n))) in *.
    assert (HJ : 0 < J) by (unfold J; apply Z.mul_pos_pos; lia).
    assert (HJm : 2 ^ n * J <= m).
    { assert (Hx : 2 ^ n * J * P2 e <= m * P2 e).
      { replace (2 ^ n * J * P2 e) with (c * P2 K); trivial.
        rewrite E. unfold J. ring. }
      apply Z.mul_le_mono_pos_r in Hx; trivial. }
    assert (HJq : J <= m / 2 ^ n) by (apply Z.div_le_lower_bound; lia).
    split; [lia|].
    rewrite P2_add by lia.
    replace (c * P2 K) with (J * (P2 e * 2 ^ n)) by (rewrite E; unfold J; ring).
    apply Z.mul_le_mono_nonneg_r; [|exact HJq].
    apply Z.mul_nonneg_nonneg; lia.
  - (* the result has 53 digits and an exponent above that of the bound *)
    assert (Hn53 : e + n = Zdigits2 m + e - 53).
    { unfold n in *. rewrite fexp_eq in *. lia. }
    assert (Hd : Zdigits2 (m / 2 ^ n) = 53).
    { rewrite Zdigits2_div_pow2; lia. }
    assert (Hq0 : 0 <= m / 2 ^ n) by (apply Z.div_pos; lia).
    assert (Hq : 0 < m / 2 ^ n).
    { destruct (Z.eq_dec (m / 2 ^ n) 0) as [E|]; [|lia].
      rewrite E in Hd. discriminate Hd. }
    split; trivial.
    destruct (Zdigits2_bounds (m / 2 ^ n) Hq) as [Hl _]. rewrite Hd in Hl.
    destruct (Zdigits2_bounds c Hc) as [_ Hu].
    assert (Hc53 : c < 2 ^ 53).
    { apply Z.lt_le_trans with (2 ^ Zdigits2 c); trivial.
      apply Z.pow_le_mono_r; lia. }
    pose proof (P2_pos (e + n) ltac:(lia)) as Hpen.
    apply Z.le_trans with (2 ^ 53 * P2 K).
    + apply Z.mul_le_mono_nonneg_r; lia.
    + apply Z.le_trans with (2 ^ (53 - 1) * P2 (e + n)).
      * unfold P2. rewrite <- !Z.pow_add_r by lia.
        apply Z.pow_le_mono_r; lia.
      * apply Z.mul_le_mono_nonneg_r; lia.
Qed.

Lemma round_finish_above (m e c K : Z) :
  0 < m -> -3000 <= e ->
  0 < c -> Zdigits2 c <= 53 -> -1074 <= K ->
  c * P2 K <= m * P2 e ->
  pos_above
    (let '(mrs, e') := shr_fexp prec emax m e loc_Exact in
     match shr_m mrs with
     | 0 => S754_zero false
     | Z.pos m' =>
         if e' <=? emax - prec
         then S754_finite false m' e' else S754_infinity false
     | Z.neg _ => S754_nan
     end) c K.
Proof.
  intros Hm He Hc Hdc HK H.
  destruct (shr_fexp_spec m e loc_Exact (Z.lt_le_incl _ _ Hm)) as [Hle Hgt].
  pose proof (shift_above m e c K Hm He Hc Hdc HK H) as Hsh.
  set (n := fexp prec emax (Zdigits2 m + e) - e) in *.
  destruct (Z_le_gt_dec n 0) as [Hn|Hn].
  - rewrite (Hle Hn). cbn [shr_record_of_loc shr_m].
    destruct m as [|p|p]; try lia.
    destruct (e <=? emax - prec); [|exact I]. cbn [pos_above]. split; lia.
  - destruct Hgt as (mrs & -> & Hm1 & _); [lia|]. rewrite Hm1.
    destruct (Hsh ltac:(lia)) as [Hq Hv].
    destruct (m / 2 ^ n) as [|p|p]; try lia.
    destruct (e + n <=? emax - prec); [|exact I].
    cbn [pos_above]. split; lia.
Qed.

(** Rounding does not go below a bound that is itself a number of the
    format. *)
Lemma binary_round_aux_above (m e : Z) (l : location) (c K : Z) :
  0 < m -> -3000 <= e ->
  0 < c -> Zdigits2 c <= 53 -> -1074 <= K ->
  c * P2 K <= m * P2 e ->
  pos_above (binary_round_aux prec emax false m e l) c K.
Proof.
  intros Hm He Hc Hdc HK H. unfold binary_round_aux.
  destruct (shr_fexp_spec m e l (Z.lt_le_incl _ _ Hm)) as [Hle Hgt].
  pose proof (shift_above m e c K Hm He Hc Hdc HK H) as Hsh.
  pose proof (fexp_ge (Zdigits2 m + e)) as Hf.
  set (n := fexp prec emax (Zdigits2 m + e) - e) in *.
  pose proof (P2_pos e He) as Hpe.
  destruct (Z_le_gt_dec n 0) as [Hn|Hn].
  - rewrite (Hle Hn).
    rewrite shr_m_record_of_loc, loc_of_record_of_loc.
    assert (Hr : m <= round_nearest_even m l)
      by (destruct (round_nearest_even_cases m l) as [->|[-> _]]; lia).
    apply round_finish_above; trivial; try lia.
    apply Z.le_trans with (m * P2 e); trivial.
    apply Z.mul_le_mono_nonneg_r; lia.
  - destruct Hgt as (mrs & -> & Hm1 & _); [lia|]. rewrite Hm1.
    destruct (Hsh ltac:(lia)) as [Hq Hv].
    set (m2 := round_nearest_even (m / 2 ^ n) (loc_of_shr_record mrs)).
    assert (Hr : m / 2 ^ n <= m2).
    { unfold m2.
      destruct (round_nearest_even_cases (m / 2 ^ n)
                  (loc_of_shr_record mrs)) as [->|[-> _]]; lia. }
    pose proof (P2_pos (e + n) ltac:(lia)) as Hpen.
    apply round_finish_above; trivial; try lia.
    apply Z.le_trans with (m / 2 ^ n * P2 (e + n)); trivial.
    apply Z.mul_le_mono_nonneg_r; lia.
Qed.

Lemma binary_round_above (m : positive) (e c K : Z) :
  -1074 <= e ->
  0 < c -> Zdigits2 c <= 53 -> -1074 <= K ->
  c * P2 K <= Z.pos m * P2 e ->
  pos_above (binary_round prec emax false m e) c K.
Proof.
  intros He Hc Hdc HK H. unfold binary_round.
  pose proof (shl_align_spec m e (fexp prec emax (Z.pos (digits2_pos m) + e)))
    as [Hs _].
  pose proof (shl_align_value m e
                (fexp prec emax (Z.pos (digits2_pos m) + e))) as Hv.
  pose proof (fexp_ge (Z.pos (digits2_pos m) + e)) as Hf.
  destruct (shl_align m e _) as [mz ez]. cbn [fst snd] in *.
  assert (Hv' : c * P2 K <= Z.pos mz * P2 ez)
    by (rewrite Hv by lia; exact H).
  apply binary_round_aux_above; trivial; lia.
Qed.

(** Adding a number that is not negative does not go below. *)
Lemma SFadd_above (X Y : spec_float) (c K : Z) :
  valid_binary X = true -> valid_binary Y = true ->
  pos_above X c K -> nonneg Y ->
  0 < c -> Zdigits2 c <= 53 -> -1074 <= K ->
  pos_above (SFadd prec emax X Y) c K.
Proof.
  intros VX VY HX HY Hc Hdc HK.
  destruct X as [sx|[|]| |[|] mx ex], Y as [sy|[|]| |[|] my ey];
    cbn [pos_above nonneg] in *; try contradiction; try exact I;
    try exact HX.
  cbn [SFadd cond_Zopp].
  destruct (valid_finite _ _ _ VX) as (Hex & _).
  destruct (valid_finite _ _ _ VY) as (Hey & _).
  set (ez := Z.min ex ey).
  pose proof (shl_align_spec mx ex ez) as [Hsx _].
  pose proof (shl_align_value mx ex ez ltac:(unfold ez; lia)) as Hvx.
  replace (snd (shl_align mx ex ez)) with ez in Hvx by (unfold ez in *; lia).
  change (Z.pos (fst (shl_align mx ex ez)) + Z.pos (fst (shl_align my ey ez)))
    with (Z.pos (fst (shl_align mx ex ez) + fst (shl_align my ey ez))).
  cbn [binary_normalize].
  apply binary_round_above; trivial; [unfold ez; lia|].
  destruct HX as [_ HX].
  apply Z.le_trans with (Z.pos mx * P2 ex); trivial.
  rewrite <- Hvx. pose proof (P2_pos ez ltac:(unfold ez; lia)).
  apply Z.mul_le_mono_nonneg_r; lia.
Qed.

(** *** From bounds back to comparisons *)

Lemma SFleb_of_above (mc : positive) (ec : Z) (A : spec_float) :
  valid_binary (S754_finite false mc ec) = true -> valid_binary A = true ->
  pos_above A (Z.pos mc) ec ->
  SFleb (S754_finite false mc ec) A = true.
Proof.
  intros VC VA HA.
  destruct (valid_finite _ _ _ VC) as (Hec & Hdc & Hnc).
  destruct A as [sa|[|]| |[|] ma ea]; cbn [pos_above] in HA;
    try contradiction; try reflexivity.
  destruct (valid_finite _ _ _ VA) as (Hea & Hda & Hna).
  destruct HA as [_ HA]. unfold SFleb. cbn [SFcompare].
  pose proof (P2_pos ea ltac:(lia)) as Hpa.
  pose proof (P2_pos ec ltac:(lia)) as Hpc.
  destruct (Z.compare_spec ec ea) as [E|E|E]; trivial.
  - subst ea. apply Z.mul_le_mono_pos_r in HA; trivial.
    change (Pos.compare_cont Eq mc ma) with (Pos.compare mc ma).
    destruct (Pos.compare_spec mc ma) as [E|E|E]; trivial. lia.
  - exfalso.
    destruct (Zdigits2_bounds (Z.pos ma) ltac:(lia)) as [_ Hua].
    destruct (Zdigits2_bounds (Z.pos mc) ltac:(lia)) as [Hlc _].
    rewrite (Hnc ltac:(lia)) in Hlc.
    assert (Hua' : Z.pos ma < 2 ^ 53).
    { apply Z.lt_le_trans with (2 ^ Zdigits2 (Z.pos ma)); trivial.
      apply Z.pow_le_mono_r; lia. }
    assert (H1 : Z.pos ma * P2 ea < 2 ^ 53 * P2 ea)
      by (apply Z.mul_lt_mono_pos_r; lia).
    assert (H2 : 2 ^ 53 * P2 ea <= 2 ^ (53 - 1) * P2 ec).
    { unfold P2. rewrite <- !Z.pow_add_r by lia.
      apply Z.pow_le_mono_r; lia. }
    assert (H3 : 2 ^ (53 - 1) * P2 ec <= Z.pos mc * P2 ec)
      by (apply Z.mul_le_mono_nonneg_r; lia).
    lia.
Qed.

Lemma SFleb_of_le (A : spec_float) (mc : positive) (ec : Z) :
  valid_binary A = true -> valid_binary (S754_finite false mc ec) = true ->
  nonneg A -> mag_le A (Z.pos mc) ec ->
  SFleb A (S754_finite false mc ec) = true.
Proof.
  intros VA VC Hn HA.
  destruct (valid_finite _ _ _ VC) as (Hec & Hdc & Hnc).
  destruct A as [sa|[|]| |[|] ma ea]; cbn [mag_le nonneg] in *;
    try contradiction; try reflexivity.
  destruct (valid_finite _ _ _ VA) as (Hea & Hda & Hna).
  destruct HA as [_ HA]. unfold SFleb. cbn [SFcompare].
  pose proof (P2_pos ea ltac:(lia)) as Hpa.
  pose proof (P2_pos ec ltac:(lia)) as Hpc.
  destruct (Z.compare_spec ea ec) as [E|E|E]; trivial.
  - subst ea. apply Z.mul_le_mono_pos_r in HA; trivial.
    change (Pos.compare_cont Eq ma mc) with (Pos.compare ma mc).
    destruct (Pos.compare_spec ma mc) as [E|E|E]; trivial. lia.
  - exfalso.
    destruct (Zdigits2_bounds (Z.pos mc) ltac:(lia)) as [_ Huc].
    destruct (Zdigits2_bounds (Z.pos ma) ltac:(lia)) as [Hla _].
    rewrite (Hna ltac:(lia)) in Hla.
    assert (Huc' : Z.pos mc < 2 ^ 53).
    { apply Z.lt_le_trans with (2 ^ Zdigits2 (Z.pos mc)); trivial.
      apply Z.pow_le_mono_r; lia. }
    assert (H1 : Z.pos mc * P2 ec < 2 ^ 53 * P2 ec)
      by (apply Z.mul_lt_mono_pos_r; lia).
    assert (H2 : 2 ^ 53 * P2 ec <= 2 ^ (53 - 1) * P2 ea).
    { unfold P2. rewrite <- !Z.pow_add_r by lia.
      apply Z.pow_le_mono_r; lia. }
    assert (H3 : 2 ^ (53 - 1) * P2 ea <= Z.pos ma * P2 ea)
      by (apply Z.mul_le_mono_nonneg_r; lia).
    lia.
Qed.

Lemma nonneg_abs_compare (A B : spec_float) :
  nonneg A -> SFcompare (SFabs A) B = SFcompare A B.
Proof.
  destruct A as [sa|[|]| |[|] ma ea]; cbn [nonneg]; try contradiction;
    reflexivity.
Qed.

Lemma SFleb_nonneg (A : spec_float) :
  SFleb (S754_zero false) A = true -> nonneg A.
Proof.
  destruct A as [sa|[|]| |[|] ma ea]; cbn; trivial; discriminate.
Qed.

(** A number that is not negative times a positive finite one. *)
Lemma SFmul_nonneg (X : spec_float) (my : positive) (ey : Z) :
  nonneg X -> nonneg (SFmul prec emax X (S754_finite false my ey)).
Proof.
  intros HX.
  destruct X as [sx|[|]| |[|] mx ex]; cbn [nonneg] in *; try contradiction;
    cbn [SFmul xorb nonneg]; trivial.
  apply SFleb_nonneg.
  apply (@binary_round_aux_nonneg (Z.pos (mx * my)) (ex + ey) loc_Exact). lia.
Qed.

(** ** The force loop on binary64 *)

Lemma SFleb_compare (A B : spec_float) :
  SFleb A B = true ->
  SFcompare A B = Some Lt \/ SFcompare A B = Some Eq.
Proof.
  unfold SFleb. destruct (SFcompare A B) as [[| |]|]; auto; discriminate.
Qed.

Lemma SFltb_compare (A B : spec_float) :
  SFltb A B = true ->
  SFcompare A B = Some Lt \/ SFcompare A B = Some Eq.
Proof.
  unfold SFltb. destruct (SFcompare A B) as [[| |]|]; auto; discriminate.
Qed.

Lemma pos_ge_abs (A : spec_float) (j : Z) : pos_ge A j -> SFabs A = A.
Proof.
  destruct A as [s|[|]| |[|] m e]; cbn [pos_ge]; try contradiction;
    reflexivity.
Qed.

Lemma mag_le_finite (a : float) (c K : Z) :
  mag_le (Prim2SF a) c K -> is_finite a = true.
Proof.
  unfold is_finite, is_nan, is_infinity.
  rewrite !eqb_spec, abs_spec.
  change (Prim2SF infinity) with (S754_infinity false).
  destruct (Prim2SF a) as [s|s| |s m e] eqn:E; cbn [mag_le]; try contradiction;
    intros _.
  - reflexivity.
  - unfold SFeqb. rewrite SFcompare_refl by discriminate. reflexivity.
Qed.

Section FloatBounds.

Local Open Scope float_scope.

(** Float-level readings of the bounds. *)
Lemma leb_pos_ge (c a : float) (j : Z) :
  pos_ge (Prim2SF c) j -> (c <=? a) = true -> pos_ge (Prim2SF a) j.
Proof.
  intros Hc H. rewrite leb_spec in H.
  exact (SFcompare_pos_ge _ _ j (Prim2SF_valid c) (Prim2SF_valid a) Hc
           (SFleb_compare _ _ H)).
Qed.

Lemma ltb_pos_ge (c a : float) (j : Z) :
  pos_ge (Prim2SF c) j -> (c <? a) = true -> pos_ge (Prim2SF a) j.
Proof.
  intros Hc H. rewrite ltb_spec in H.
  exact (SFcompare_pos_ge _ _ j (Prim2SF_valid c) (Prim2SF_valid a) Hc
           (SFltb_compare _ _ H)).
Qed.

Lemma abs_leb_mag_le (a b : float) (c K : Z) :
  mag_le (Prim2SF b) c K -> (abs a <=? b) = true -> mag_le (Prim2SF a) c K.
Proof.
  intros Hb H. rewrite leb_spec, abs_spec in H.
  exact (SFcompare_mag_le _ _ c K (Prim2SF_valid a) (Prim2SF_valid b) Hb
           (SFleb_compare _ _ H)).
Qed.

Lemma pos_leb_mag_le (a b : float) (j c K : Z) :
  pos_ge (Prim2SF a) j ->
  mag_le (Prim2SF b) c K -> (a <=? b) = true -> mag_le (Prim2SF a) c K.
Proof.
  intros Ha Hb H. rewrite leb_spec in H.
  rewrite <- (pos_ge_abs _ _ Ha) in H.
  exact (SFcompare_mag_le _ _ c K (Prim2SF_valid a) (Prim2SF_valid b) Hb
           (SFleb_compare _ _ H)).
Qed.

Lemma float_mul_le (x y : float) (a Ka b Kb c K : Z) :
  mag_le (Prim2SF x) a Ka -> mag_le (Prim2SF y) b Kb ->
  (0 <= a)%Z -> (0 <= b)%Z ->
  (-3000 <= Ka)%Z -> (-3000 <= Kb)%Z -> (-3000 <= Ka + Kb)%Z ->
  (0 < c)%Z -> (Zdigits2 c <= 53)%Z -> (-1074 <= K)%Z ->
  (Zdigits2 c + K <= 1024)%Z ->
  (a * b * P2 (Ka + Kb) <= c * P2 K)%Z ->
  mag_le (Prim2SF (x * y)) c K.
Proof.
  intros. rewrite mul_spec.
  apply (SFmul_le _ _ a Ka b Kb); trivial; apply Prim2SF_valid.
Qed.

Lemma float_mul_ge (x y : float) (j1 j2 : Z) :
  pos_ge (Prim2SF x) j1 -> pos_ge (Prim2SF y) j2 -> (-1074 <= j1 + j2)%Z ->
  pos_ge (Prim2SF (x * y)) (j1 + j2).
Proof. intros. rewrite mul_spec. now apply SFmul_ge. Qed.

Lemma float_div_le (x y : float) (a Ka j c K : Z) :
  mag_le (Prim2SF x) a Ka -> pos_ge (Prim2SF y) j ->
  (0 < a)%Z -> (-3000 <= Ka)%Z -> (-3000 <= j)%Z ->
  (0 < c)%Z -> (Zdigits2 c <= 53)%Z -> (-1074 <= K)%Z ->
  (Zdigits2 c + K <= 1024)%Z ->
  (a * P2 Ka * 2 ^ 3000 <= c * P2 K * P2 j)%Z ->
  mag_le (Prim2SF (x / y)) c K.
Proof.
  intros. rewrite div_spec.
  apply (SFdiv_le _ _ a Ka j); trivial; apply Prim2SF_valid.
Qed.

Lemma float_add_le (x y : float) (a Ka b Kb c K : Z) :
  mag_le (Prim2SF x) a Ka -> mag_le (Prim2SF y) b Kb ->
  (0 <= a)%Z -> (0 <= b)%Z -> (-3000 <= Ka)%Z -> (-3000 <= Kb)%Z ->
  (0 < c)%Z -> (Zdigits2 c <= 53)%Z -> (-1074 <= K)%Z ->
  (Zdigits2 c + K <= 1024)%Z ->
  (a * P2 Ka + b * P2 Kb <= c * P2 K)%Z ->
  mag_le (Prim2SF (x + y)) c K.
Proof.
  intros. rewrite add_spec.
  apply (SFadd_le _ _ a Ka b Kb); trivial; apply Prim2SF_valid.
Qed.

Lemma float_sub_le (x y : float) (a Ka b Kb c K : Z) :
  mag_le (Prim2SF x) a Ka -> mag_le (Prim2SF y) b Kb ->
  (0 <= a)%Z -> (0 <= b)%Z -> (-3000 <= Ka)%Z -> (-3000 <= Kb)%Z ->
  (0 < c)%Z -> (Zdigits2 c <= 53)%Z -> (-1074 <= K)%Z ->
  (Zdigits2 c + K <= 1024)%Z ->
  (a * P2 Ka + b * P2 Kb <= c * P2 K)%Z ->
  mag_le (Prim2SF (x - y)) c K.
Proof.
  intros. rewrite sub_spec.
  apply (SFsub_le _ _ a Ka b Kb); trivial; apply Prim2SF_valid.
Qed.

Lemma float_add_ge (x y : float) (j j' : Z) :
  pos_ge (Prim2SF x) j -> pos_ge (Prim2SF y) j' -> (-1074 <= j)%Z ->
  pos_ge (Prim2SF (x + y)) j.
Proof. intros. rewrite add_spec. now apply (SFadd_ge _ _ j j'). Qed.

End FloatBounds.

End Rounding.

Section ForceLoopFinite.

Import IEEE Magnitude.
Local Open Scope float_scope.

Lemma one_pos_ge : pos_ge (Prim2SF 1) 0.
Proof. vm_compute. reflexivity. Qed.

Lemma three_pos_ge : pos_ge (Prim2SF 3) 1.
Proof. vm_compute. reflexivity. Qed.

Lemma hundred_mag_le : mag_le (Prim2SF 100) 100 0.
Proof. vm_compute. split; discriminate. Qed.

Lemma thousand_mag_le : mag_le (Prim2SF 1000) 1000 0.
Proof. vm_compute. split; discriminate. Qed.

Lemma far_mag_le : mag_le (Prim2SF 0x1p+500) 1 500.
Proof. vm_compute. split; discriminate. Qed.

Lemma in_range_facts (b : Body float) :
  in_range b = true ->
  mag_le (Prim2SF (x b)) 1 500 /\ mag_le (Prim2SF (y b)) 1 500
  /\ pos_ge (Prim2SF (mass b)) 0 /\ mag_le (Prim2SF (mass b)) 1000 0
  /\ pos_ge (Prim2SF (radius b)) 1.
Proof.
  unfold in_range. intros H.
  apply andb_prop in H. destruct H as [Hv Hw].
  unfold in_view in Hv. unfold well_sized in Hw.
  apply andb_prop in Hv. destruct Hv as [Hx Hy].
  repeat (apply andb_prop in Hw; destruct Hw as [Hw ?]).
  assert (Hm : pos_ge (Prim2SF (mass b)) 0)
    by (apply (leb_pos_ge 1); [exact one_pos_ge|assumption]).
  repeat split.
  - apply (abs_leb_mag_le (x b) 0x1p+500); [exact far_mag_le|assumption].
  - apply (abs_leb_mag_le (y b) 0x1p+500); [exact far_mag_le|assumption].
  - exact Hm.
  - apply (pos_leb_mag_le (mass b) 1000 0); [exact Hm|exact thousand_mag_le|].
    assumption.
  - apply (leb_pos_ge 3); [exact three_pos_ge|assumption].
Qed.

(** One component of what a body that is apart adds. *)
Lemma pull_bounded (body otherBody : Body float) (po pb a : float) (n : Z) :
  in_range body = true -> in_range otherBody = true ->
  (radius body + radius otherBody <? center_distance body otherBody) = true ->
  mag_le (Prim2SF po) 1 500 -> mag_le (Prim2SF pb) 1 500 ->
  (0 <= n)%Z -> (n + 1 < 2 ^ 53)%Z ->
  mag_le (Prim2SF a) n 525 ->
  mag_le
    (Prim2SF
       (a + 100 * mass body * mass otherBody
            / (center_distance body otherBody * center_distance body otherBody)
            * (po - pb)
            / (center_distance body otherBody * mass body)))
    (n + 1) 525.
Proof.
  intros Hb Ho Hg Hpo Hpb Hn Hn1 Ha.
  destruct (in_range_facts body Hb) as (_ & _ & Hmb & Hmb' & Hrb).
  destruct (in_range_facts otherBody Ho) as (_ & _ & Hmo & Hmo' & Hro).
  set (d := center_distance body otherBody) in *.
  assert (Hd : pos_ge (Prim2SF d) 1).
  { apply (ltb_pos_ge (radius body + radius otherBody)); [|exact Hg].
    apply (float_add_ge _ _ 1 1); trivial. lia. }
  assert (HN : mag_le (Prim2SF (100 * mass body * mass otherBody))
                 100000000 0).
  { apply (float_mul_le _ _ 100000 0 1000 0); trivial; try side.
    apply (float_mul_le _ _ 100 0 1000 0); trivial; try side.
    exact hundred_mag_le. }
  assert (Hdd : pos_ge (Prim2SF (d * d)) (1 + 1))
    by (apply float_mul_ge; trivial; lia).
  assert (Hf : mag_le (Prim2SF (100 * mass body * mass otherBody / (d * d)))
                 100000000 (-2)).
  { apply (float_div_le _ _ 100000000 0 (1 + 1)); trivial; side. }
  assert (Hdx : mag_le (Prim2SF (po - pb)) 1 501).
  { apply (float_sub_le _ _ 1 500 1 500); trivial; side. }
  assert (Ht : mag_le (Prim2SF (100 * mass body * mass otherBody / (d * d)
                                * (po - pb))) 100000000 499).
  { apply (float_mul_le _ _ 100000000 (-2) 1 501); trivial; side. }
  assert (Hdm : pos_ge (Prim2SF (d * mass body)) (1 + 0))
    by (apply float_mul_ge; trivial; lia).
  assert (Hc : mag_le (Prim2SF (100 * mass body * mass otherBody / (d * d)
                                * (po - pb) / (d * mass body))) 1 525).
  { apply (mag_le_weaken _ 100000000 498); [side|].
    apply (float_div_le _ _ 100000000 499 (1 + 0)); trivial; side. }
  apply (float_add_le _ _ n 525 1 525); trivial; try lia.
  - apply Zdigits2_le; lia.
  - pose proof (Zdigits2_le (n + 1) 53 ltac:(lia) ltac:(lia) Hn1). lia.
Qed.

Lemma attract_bounded (body otherBody : Body float) (acc : float * float)
    (n : Z) :
  in_range body = true -> in_range otherBody = true ->
  (0 <= n)%Z -> (n + 1 < 2 ^ 53)%Z ->
  mag_le (Prim2SF (fst acc)) n 525 -> mag_le (Prim2SF (snd acc)) n 525 ->
  mag_le (Prim2SF (fst (attract body acc otherBody))) (n + 1) 525
  /\ mag_le (Prim2SF (snd (attract body acc otherBody))) (n + 1) 525.
Proof.
  intros Hb Ho Hn Hn1 Hx Hy.
  rewrite attract_float. cbv zeta.
  destruct (radius body + radius otherBody <? center_distance body otherBody)
    eqn:Hg.
  - destruct (in_range_facts body Hb) as (Hxb & Hyb & _).
    destruct (in_range_facts otherBody Ho) as (Hxo & Hyo & _).
    cbn [fst snd]. split; now apply pull_bounded.
  - pose proof (P2_pos 525 ltac:(lia)).
    split; apply (mag_le_weaken _ n 525); trivial; lia.
Qed.

Lemma fold_attract_bounded (body : Body float) (l : list (Body float)) :
  in_range body = true ->
  forallb in_range l = true ->
  forall (acc : float * float) (n : Z),
    (0 <= n)%Z -> (n + Z.of_nat (length l) < 2 ^ 53)%Z ->
    mag_le (Prim2SF (fst acc)) n 525 -> mag_le (Prim2SF (snd acc)) n 525 ->
    mag_le (Prim2SF (fst (fold_left (attract body) l acc)))
      (n + Z.of_nat (length l)) 525
    /\ mag_le (Prim2SF (snd (fold_left (attract body) l acc)))
         (n + Z.of_nat (length l)) 525.
Proof.
  intros Hb. induction l as [|o l IH]; intros Hl acc n Hn Hlen Hx Hy.
  - cbn [length fold_left]. rewrite Z.add_0_r. now split.
  - cbn [forallb] in Hl. apply andb_prop in Hl. destruct Hl as [Ho Hl].
    cbn [fold_left]. cbn [length] in *. rewrite Nat2Z.inj_succ in *.
    destruct (attract_bounded body o acc n Hb Ho Hn ltac:(lia) Hx Hy)
      as [Hx1 Hy1].
    replace (n + Z.succ (Z.of_nat (length l)))%Z
      with (n + 1 + Z.of_nat (length l))%Z by lia.
    apply IH; trivial; lia.
Qed.

Lemma forallb_others {A : Type} (f : A -> bool) (i : nat) (l : list A) :
  forallb f l = true -> forallb f (others i l) = true.
Proof.
  revert i; induction l as [|a l IH]; intros [|i] H; cbn in *; trivial.
  - apply andb_prop in H. tauto.
  - apply andb_prop in H. destruct H as [-> H]. cbn. now apply IH.
Qed.

Lemma length_others {A : Type} (i : nat) (l : list A) :
  length (others i l) <= length l.
Proof.
  revert i; induction l as [|a l IH]; intros [|i]; cbn; try lia.
  specialize (IH i). lia.
Qed.

Lemma acceleration_finite (bs : list (Body float)) (i : nat)
    (body : Body float) :
  forallb in_range bs = true ->
  in_range body = true ->
  (Z.of_nat (length bs) < 2 ^ 53)%Z ->
  is_finite (fst (acceleration bs i body)) = true
  /\ is_finite (snd (acceleration bs i body)) = true.
Proof.
  intros Hbs Hb Hlen.
  rewrite acceleration_others.
  pose proof (length_others i bs) as Hlo.
  assert (H0 : mag_le (Prim2SF (literal 0)) 0 525) by (vm_compute; exact I).
  destruct (fold_attract_bounded body (others i bs) Hb
              (forallb_others in_range i bs Hbs) (literal 0, literal 0) 0
              ltac:(lia) ltac:(lia) H0 H0) as [Hx Hy].
  split; eapply mag_le_finite; eassumption.
Qed.

End ForceLoopFinite.

Section SizesInRange.

Import IEEE Magnitude.
Local Open Scope float_scope.

Lemma leb_above (c a : float) (mc : positive) (ec : Z) :
  Prim2SF c = S754_finite false mc ec ->
  pos_above (Prim2SF a) (Z.pos mc) ec -> (c <=? a) = true.
Proof.
  intros Ec H. rewrite leb_spec, Ec.
  apply SFleb_of_above; trivial.
  - rewrite <- Ec. apply Prim2SF_valid.
  - apply Prim2SF_valid.
Qed.

Lemma leb_of_mag_le (a c : float) (mc : positive) (ec : Z) :
  Prim2SF c = S754_finite false mc ec ->
  nonneg (Prim2SF a) -> mag_le (Prim2SF a) (Z.pos mc) ec ->
  (a <=? c) = true.
Proof.
  intros Ec Hn H. rewrite leb_spec, Ec.
  apply SFleb_of_le; trivial.
  - apply Prim2SF_valid.
  - rewrite <- Ec. apply Prim2SF_valid.
Qed.

Lemma pos_above_nonneg (f : spec_float) (c K : Z) :
  pos_above f c K -> nonneg f.
Proof.
  destruct f as [s|[|]| |[|] m e]; cbn; trivial.
Qed.

(** [lo + r * k] for a draw [r] in [[0, 1)]: between [lo] and [hi], when
    [lo + k <= hi]. *)
Lemma draw_in_range (lo k hi r : float) (mlo mk mhi : positive)
    (elo ek ehi : Z) :
  Prim2SF lo = S754_finite false mlo elo ->
  Prim2SF k = S754_finite false mk ek ->
  Prim2SF hi = S754_finite false mhi ehi ->
  (Z.pos mlo * P2 elo + Z.pos mk * P2 ek <= Z.pos mhi * P2 ehi)%Z ->
  (0 <=? r) = true -> (r <? 1) = true ->
  (lo <=? lo + r * k) = true /\ (lo + r * k <=? hi) = true.
Proof.
  intros Elo Ek Ehi Hside H0 H1.
  pose proof (Prim2SF_valid lo) as Vlo. rewrite Elo in Vlo.
  pose proof (Prim2SF_valid k) as Vk. rewrite Ek in Vk.
  pose proof (Prim2SF_valid hi) as Vhi. rewrite Ehi in Vhi.
  destruct (valid_finite _ _ _ Vlo) as (Hel & Hdl & _).
  destruct (valid_finite _ _ _ Vk) as (Hek & Hdk & _).
  destruct (valid_finite _ _ _ Vhi) as (Heh & Hdh & _).
  pose proof (P2_pos elo ltac:(lia)) as Hpl.
  pose proof (P2_pos ek ltac:(lia)) as Hpk.
  assert (Hr : nonneg (Prim2SF r)).
  { rewrite leb_spec in H0. now apply SFleb_nonneg. }
  assert (Hr1 : mag_le (Prim2SF r) 1 0).
  { rewrite ltb_spec in H1.
    apply (SFcompare_mag_le _ (Prim2SF 1) 1 0);
      try apply Prim2SF_valid.
    - vm_compute. split; discriminate.
    - rewrite nonneg_abs_compare by trivial. now apply SFltb_compare. }
  assert (Hy : nonneg (Prim2SF (r * k))).
  { rewrite mul_spec, Ek. now apply SFmul_nonneg. }
  assert (Hy' : mag_le (Prim2SF (r * k)) (Z.pos mk) ek).
  { rewrite mul_spec.
    apply (SFmul_le _ _ 1 0 (Z.pos mk) ek); try apply Prim2SF_valid;
      trivial; try lia.
    - rewrite Ek. cbn [mag_le]. split; lia.
    - rewrite Z.add_0_l. lia. }
  assert (Hlo : pos_above (Prim2SF (lo + r * k)) (Z.pos mlo) elo).
  { rewrite add_spec.
    apply SFadd_above; try apply Prim2SF_valid; trivial; try lia.
    rewrite Elo. cbn [pos_above]. split; lia. }
  split.
  - exact (leb_above lo _ mlo elo Elo Hlo).
  - apply (leb_of_mag_le _ hi mhi ehi Ehi).
    + exact (pos_above_nonneg _ _ _ Hlo).
    + rewrite add_spec.
      apply (SFadd_le _ _ (Z.pos mlo) elo (Z.pos mk) ek);
        try apply Prim2SF_valid; trivial; try lia.
      rewrite Elo. cbn [mag_le]. split; lia.
Qed.

Lemma well_sized_sunAt (sz : Size float) : well_sized (sunAt sz) = true.
Proof. reflexivity. Qed.

Lemma well_sized_newBody (M : MathLib float) (sun : Body float)
    (clickX clickY r1 r2 r3 : float) :
  (0 <=? r1) = true -> (r1 <? 1) = true ->
  (0 <=? r2) = true -> (r2 <? 1) = true ->
  well_sized (newBody sun clickX clickY r1 r2 r3) = true.
Proof.
  intros H1 H1' H2 H2'. unfold well_sized, newBody. cbn [mass radius].
  change (literal 1) with 1. change (literal 9) with 9.
  change (literal 3) with 3. change (literal 5) with 5.
  destruct (draw_in_range 1 9 1000 r1 4503599627370496 5066549580791808
              8796093022208000 (-52) (-49) (-43)) as [Ha Hb];
    try reflexivity; trivial.
  { apply Z.leb_le. vm_compute. reflexivity. }
  destruct (draw_in_range 3 5 15 r2 6755399441055744 5629499534213120
              8444249301319680 (-51) (-50) (-49)) as [Hc Hd];
    try reflexivity; trivial.
  { apply Z.leb_le. vm_compute. reflexivity. }
  change ((1 <=? 1 + r1 * 9) && (1 + r1 * 9 <=? 1000)
          && (3 <=? 3 + r2 * 5) && (3 + r2 * 5 <=? 15) = true).
  now rewrite Ha, Hb, Hc, Hd.
Qed.

Lemma well_sized_handle (M : MathLib float) (st : State float)
    (e : @Event float) :
  fair e = true ->
  forallb well_sized (bodies st) = true ->
  forallb well_sized (bodies (handle st e)) = true.
Proof.
  intros Hf H. destruct e; cbn [handle]; trivial.
  - cbn [simulate bodies]. unfold updatedBodies.
    apply forallb_forall. intros b' Hin. apply in_map_iff in Hin.
    destruct Hin as ([i b] & <- & Hin).
    rewrite forallb_forall in H.
    unfold indexed in Hin. apply in_combine_r in Hin.
    destruct (updateBody_copies (timeScale st) (bodies st) i b)
      as (Hm & Hr & _).
    unfold well_sized. rewrite Hm, Hr. exact (H b Hin).
  - unfold handleCanvasClick.
    destruct (find (fun body => isSun body) (bodies st)); trivial.
    cbn [bodies]. rewrite forallb_app, H. cbn [forallb].
    cbn [fair] in Hf.
    repeat (apply andb_prop in Hf; destruct Hf as [Hf ?]).
    rewrite well_sized_newBody; trivial.
Qed.

Lemma well_sized_run (M : MathLib float) (evs : list (@Event float)) :
  forall st : State float,
    forallb fair evs = true ->
    forallb well_sized (bodies st) = true ->
    forallb well_sized (bodies (run evs st)) = true.
Proof.
  induction evs as [|e evs IH]; intros st Hf H; trivial.
  cbn [forallb] in Hf. apply andb_prop in Hf. destruct Hf as [He Hf].
  change (run (e :: evs) st) with (run evs (handle st e)).
  apply IH; trivial. now apply well_sized_handle.
Qed.

End SizesInRange.

Set Implicit Arguments.

(** ** The claims on binary64 *)

Section IEEEClaims.

Import IEEE.
Local Open Scope float_scope.


(** Multiplying by one is exact. *)
Lemma mul_one (a : float) : a * 1 = a.
Proof.
  apply Prim2SF_inj. rewrite mul_spec.
  pose proof (Prim2SF_valid a) as Hv.
  change (Prim2SF 1) with (S754_finite false 4503599627370496 (-52)).
  destruct (Prim2SF a) as [s|s| |s m e];
    try (destruct s; reflexivity); try reflexivity.
  unfold SF64mul, SFmul.
  replace (xorb s false) with s by (now destruct s).
  simpl in Hv. unfold bounded, canonical_mantissa in Hv.
  apply andb_prop in Hv. destruct Hv as [Hc Hb].
  apply Z.eqb_eq in Hc. apply Z.leb_le in Hb.
  rewrite Pos.mul_comm.
  unfold binary_round_aux, shr_fexp.
  cbn [Pos.mul Zdigits2 digits2_pos].
  match goal with
  | |- context [fexp prec emax (Z.pos ?d + (e + -52))] =>
      replace (Z.pos d + (e + -52))%Z with (Z.pos (digits2_pos m) + e)%Z
        by lia
  end.
  rewrite Hc.
  replace (e - (e + -52))%Z with 52%Z by lia.
  cbn -[fexp Z.add Z.sub Z.leb].
  replace (e + -52 + 52)%Z with e by lia.
  rewrite Hc, Z.sub_diag. cbn [shr shr_m].
  apply Z.leb_le in Hb. now rewrite Hb.
Qed.


(** C6, as the code has it.  For a body that is not the sun, [simulate] is a
    semi-implicit Euler step: the new velocity is the old one plus the
    acceleration times [baseTimeStep] times [timeScale], multiplied and
    rounded in that order, and the new position is the old one plus the new
    velocity times [baseTimeStep] times [timeScale], in that order;
    [baseTimeStep] is the double nearest to 0.02.  When [timeScale] is 1
    these are [v + a * dt_eff] and [p + v_new * dt_eff] with
    [dt_eff = baseTimeStep * timeScale]. *)
Theorem simulate_euler_in_binary64 (st : State float) (i : nat)
    (b : Body float) :
  nth_error (bodies st) i = Some b ->
  isSun b = false ->
  exists b',
    nth_error (bodies (simulate st)) i = Some b'
    /\ baseTimeStep = 0.02
    /\ vx b' = vx b + fst (acceleration (bodies st) i b) * 0.02 * timeScale st
    /\ vy b' = vy b + snd (acceleration (bodies st) i b) * 0.02 * timeScale st
    /\ x b' = x b + vx b' * 0.02 * timeScale st
    /\ y b' = y b + vy b' * 0.02 * timeScale st
    /\ (timeScale st = 1 ->
        dt_eff st = 0.02
        /\ vx b' = vx b + fst (acceleration (bodies st) i b) * dt_eff st
        /\ vy b' = vy b + snd (acceleration (bodies st) i b) * dt_eff st
        /\ x b' = x b + vx b' * dt_eff st
        /\ y b' = y b + vy b' * dt_eff st).
Proof.
  intros Hi Hs.
  exists (updateBody (timeScale st) (bodies st) (i, b)).
  split; [simpl; now rewrite nth_error_updatedBodies, Hi|].
  split; [reflexivity|].
  destruct (updateBody_moves (timeScale st) (bodies st) i b Hs)
    as (Hvx & Hvy & Hx & Hy).
  cbv zeta in Hvx, Hvy, Hx, Hy.
  change (baseTimeStep (num := float)) with 0.02 in Hvx, Hvy, Hx, Hy.
  repeat (split; [assumption|]).
  intros H1. unfold dt_eff.
  rewrite H1 in Hvx, Hvy, Hx, Hy |- *.
  rewrite !mul_one in Hvx, Hvy, Hx, Hy |- *.
  repeat split; assumption.
Qed.


(** C1, as the code has it.  A click on the sun's own position is not
    rejected: it appends a body, as any click does, and when the sun's
    position is finite and [G * mass] positive, the velocity of that body is
    not finite, whatever [Math.atan2], [Math.cos], [Math.sin] and
    [Math.random] return. *)
Theorem click_on_sun_appends (M : MathLib float) (st : State float)
    (sun : Body float) (r1 r2 r3 : float) :
  find (fun body => isSun body) (bodies st) = Some sun ->
  exists nb,
    bodies (handleCanvasClick (x sun) (y sun) r1 r2 r3 st)
    = bodies st ++ [nb]
    /\ length (bodies (handleCanvasClick (x sun) (y sun) r1 r2 r3 st))
       = S (length (bodies st))
    /\ (is_finite (x sun) = true ->
        is_finite (y sun) = true ->
        (0 <? G * mass sun) = true ->
        is_finite (vx nb) = false /\ is_finite (vy nb) = false).
Proof.
  intros Hsun. exists (newBody sun (x sun) (y sun) r1 r2 r3).
  assert (Hb : bodies (handleCanvasClick (x sun) (y sun) r1 r2 r3 st)
               = bodies st ++ [newBody sun (x sun) (y sun) r1 r2 r3])
    by (unfold handleCanvasClick; now rewrite Hsun).
  split; [exact Hb|]. split.
  - rewrite Hb, length_app. simpl. lia.
  - intros Hx Hy Hm. now apply newBody_on_sun.
Qed.

End IEEEClaims.

(** ** The claims at concrete inputs *)

Section Examples.

#[local] Existing Instance Demo.math_at_origin.
Local Open Scope float_scope.


Lemma orbiting_reachable : reachable Demo.orbiting.
Proof. unfold Demo.orbiting. repeat constructor. Qed.

(** C10 on a click after mounting and the frame that follows. *)
Lemma frame_and_click_frame_witness :
  (nth_error (bodies Demo.clicked) 1 = Some Demo.planet
   /\ exists b',
        nth_error (bodies (simulate Demo.clicked)) 1 = Some b'
        /\ mass b' = mass Demo.planet /\ radius b' = radius Demo.planet
        /\ color b' = color Demo.planet /\ isSun b' = false)
  /\ (find (fun body => isSun body) (bodies Demo.mounted) = Some Demo.sun
      /\ bodies Demo.clicked = [Demo.sun; Demo.planet])
  /\ (reachable Demo.orbiting
      /\ exists nb,
           bodies (handleCanvasClick 450 300 0 0 0 Demo.orbiting)
           = bodies Demo.orbiting ++ [nb])
  /\ (find (fun body => isSun body) (bodies Demo.sunless) = None
      /\ handleCanvasClick 450 300 0 0 0 Demo.sunless = Demo.sunless).
Proof.
  destruct (@frame_and_click_frame float float_Number Demo.math_at_origin)
    as (Hframe & Hclick & Hreach & Hnone).
  split; [|split; [|split]].
  - split; [reflexivity|].
    exact (proj2 (Hframe Demo.clicked) 1%nat Demo.planet eq_refl).
  - split; [reflexivity|].
    exact (Hclick Demo.mounted Demo.sun 500 300 0.5 0.5 0.5 eq_refl).
  - split; [exact orbiting_reachable|].
    exact (Hreach Demo.orbiting 450 300 0 0 0 orbiting_reachable).
  - split; [reflexivity|].
    exact (Hnone Demo.sunless 450 300 0 0 0 eq_refl).
Defined.

(** C9 on a click followed by a frame. *)
Lemma one_sun_witness :
  reachable Demo.orbiting
  /\ length (filter (fun b => isSun b) (bodies Demo.orbiting)) = 1%nat.
Proof.
  split; [exact orbiting_reachable|].
  exact (proj1 (@one_sun float float_Number Demo.math_at_origin)
           Demo.orbiting orbiting_reachable).
Defined.

(** C3 on the planet of the example over 101 frames: its tail is full, its
    oldest point is the position taken at the second frame, not at the
    first, and its newest point the position taken at the last frame; the
    planet has moved between them. *)
Lemma tail_bounded_recent_witness :
  (reachable Demo.orbiting
   /\ Forall (fun b => length (tail b) <= tailLength) (bodies Demo.orbiting))
  /\ (Forall (fun b => length (tail b) <= tailLength) (bodies Demo.mounted)
      /\ Forall (fun b => length (tail b) <= tailLength)
           (bodies (run Demo.frames Demo.mounted)))
  /\ (forallb keeps_bodies Demo.flight = true
      /\ nth_error (bodies Demo.clicked) 1 = Some Demo.planet
      /\ tail Demo.planet = []
      /\ tailLength < length (filter is_frame Demo.flight)
      /\ exists b',
           nth_error (bodies (run Demo.flight Demo.clicked)) 1 = Some b'
           /\ length (tail b') = 100%nat
           /\ nth_error (tail b') 0
              = nth_error (history 1 Demo.flight Demo.clicked) 1
           /\ nth_error (tail b') 99
              = nth_error (history 1 Demo.flight Demo.clicked) 100
           /\ match nth_error (history 1 Demo.flight Demo.clicked) 0,
                    nth_error (history 1 Demo.flight Demo.clicked) 1,
                    nth_error (history 1 Demo.flight Demo.clicked) 100
              with
              | Some first, Some second, Some last =>
                  (py first <? py second) && (py second <? py last)
              | _, _, _ => false
              end = true).
Proof.
  assert (Hm : Forall (fun b : Body float => length (tail b) <= tailLength)
                 (bodies Demo.mounted))
    by (repeat constructor; apply Nat.le_0_l).
  assert (Hl : tailLength < length (filter is_frame Demo.flight))
    by (vm_compute; lia).
  destruct (@tail_bounded_recent float float_Number Demo.math_at_origin)
    as (_ & Hreach & Hrun & Hrecent).
  split; [split; [exact orbiting_reachable
                 |exact (Hreach _ orbiting_reachable)]|].
  split; [split; [exact Hm|exact (Hrun _ Demo.frames Hm)]|].
  split; [reflexivity|]. split; [reflexivity|]. split; [reflexivity|].
  split; [exact Hl|].
  destruct (Hrecent Demo.clicked 1%nat Demo.planet Demo.flight
              eq_refl eq_refl eq_refl)
    as (b' & Hn & _ & _ & _ & Hk & _ & Hfull).
  pose proof (Hfull Hl) as Hlen. change tailLength with 100%nat in Hlen.
  exists b'. split; [exact Hn|]. split; [exact Hlen|].
  split; [|split].
  - rewrite (Hk 0%nat), Hlen; [reflexivity|rewrite Hlen; lia].
  - rewrite (Hk 99%nat), Hlen; [reflexivity|rewrite Hlen; lia].
  - vm_compute. reflexivity.
Defined.



(** C6 as amended, on the planet of the example, at the slider's minimum
    and at the default time scale. *)
Lemma simulate_euler_in_binary64_witness :
  nth_error (bodies Demo.slowed) 1 = Some Demo.planet
  /\ isSun Demo.planet = false
  /\ (exists b',
        nth_error (bodies (simulate Demo.slowed)) 1 = Some b'
        /\ vx b' = -0x1.47ae147ae12bep-6
        /\ x b' = x Demo.planet + vx b' * 0.02 * 0.1)
  /\ nth_error (bodies Demo.clicked) 1 = Some Demo.planet
  /\ timeScale Demo.clicked = 1
  /\ (exists b',
        nth_error (bodies (simulate Demo.clicked)) 1 = Some b'
        /\ vx b'
           = vx Demo.planet
             + fst (acceleration (bodies Demo.clicked) 1 Demo.planet)
               * IEEE.dt_eff Demo.clicked
        /\ x b' = x Demo.planet + vx b' * IEEE.dt_eff Demo.clicked).
Proof.
  split; [reflexivity|]. split; [reflexivity|]. split; [|split; [|split]].
  - destruct (@simulate_euler_in_binary64 Demo.slowed 1%nat Demo.planet
                eq_refl eq_refl)
      as (b' & Hn & _ & Hvx & _ & Hx & _).
    exists b'. split; [exact Hn|]. split; [|exact Hx].
    rewrite Hvx. vm_compute. reflexivity.
  - reflexivity.
  - reflexivity.
  - destruct (@simulate_euler_in_binary64 Demo.clicked 1%nat Demo.planet
                eq_refl eq_refl)
      as (b' & Hn & _ & _ & _ & _ & _ & H1).
    destruct (H1 eq_refl) as (_ & Hvx & _ & Hx & _).
    exists b'. repeat split; assumption.
Defined.

(** Against C6 as stated: at the slider's minimum, 0.1, the new velocity of
    the planet of the example is [-0.019999999999998457], while
    [v_old + acceleration * dt_eff] with [dt_eff = baseTimeStep * timeScale]
    is [-0.019999999999998453] in binary64. *)
Lemma dt_eff_counterexample :
  nth_error (bodies Demo.slowed) 1 = Some Demo.planet
  /\ isSun Demo.planet = false
  /\ timeScale Demo.slowed = 0.1
  /\ IEEE.dt_eff Demo.slowed = baseTimeStep * timeScale Demo.slowed
  /\ option_map (fun b' => vx b') (nth_error (bodies (simulate Demo.slowed)) 1)
     = Some (-0x1.47ae147ae12bep-6)
  /\ vx Demo.planet
     + fst (acceleration (bodies Demo.slowed) 1 Demo.planet)
       * IEEE.dt_eff Demo.slowed
     = -0x1.47ae147ae12bdp-6
  /\ option_map (fun b' => vx b') (nth_error (bodies (simulate Demo.slowed)) 1)
     <> Some (vx Demo.planet
              + fst (acceleration (bodies Demo.slowed) 1 Demo.planet)
                * IEEE.dt_eff Demo.slowed).
Proof.
  repeat split; try (vm_compute; reflexivity).
  intros E.
  apply (f_equal (fun o => match o with
                           | Some v => v =? -0x1.47ae147ae12bep-6
                           | None => false
                           end)) in E.
  vm_compute in E. discriminate E.
Qed.



(** C1 at the failing input: a click on (400, 300) after mounting. *)
Lemma click_on_sun_appends_witness :
  find (fun body => isSun body) (bodies Demo.mounted)
  = Some (sunAt (size Demo.mounted))
  /\ PrimFloat.is_finite (x (sunAt (size Demo.mounted))) = true
  /\ PrimFloat.is_finite (y (sunAt (size Demo.mounted))) = true
  /\ PrimFloat.ltb 0 (PrimFloat.mul G (mass (sunAt (size Demo.mounted))))
     = true
  /\ exists nb,
       bodies
         (handleCanvasClick (M := Demo.math_at_origin) 400%float 300%float
            0.5%float 0.5%float 0.5%float Demo.mounted)
       = bodies Demo.mounted ++ [nb]
       /\ PrimFloat.is_finite (vx nb) = false
       /\ PrimFloat.is_finite (vy nb) = false.
Proof.
  split; [reflexivity|]. split; [reflexivity|]. split; [reflexivity|].
  split; [reflexivity|].
  destruct (@click_on_sun_appends Demo.math_at_origin Demo.mounted
              (sunAt (size Demo.mounted)) 0.5%float 0.5%float 0.5%float
              eq_refl)
    as (nb & Hb & _ & Hinf).
  exists nb. split; [exact Hb|].
  exact (Hinf eq_refl eq_refl eq_refl).
Defined.

(** The click of the example: 100 to the right of a sun of mass 1000 the
    seeded velocity points down the screen, with speed [8 * sqrt 10], about
    25.3. *)
Example seeded_velocity_down :
  match
    nth_error
      (bodies
         (handleCanvasClick (M := Demo.math_at_origin) 500%float 300%float
            0.5%float 0.5%float 0.5%float Demo.mounted)) 1
  with
  | Some nb =>
      PrimFloat.ltb 25.25%float (vy nb) && PrimFloat.ltb (vy nb) 25.5%float
      && PrimFloat.ltb (PrimFloat.abs (vx nb)) 0x1p-40%float
  | None => false
  end = true.
Proof. vm_compute. reflexivity. Qed.


End Examples.

(** ** Further invariants of the component *)

Section MoreArrayFacts.

Context {A : Type}.

Lemma Forall_skipn_of (P : A -> Prop) (k : nat) (l : list A) :
  Forall P l -> Forall P (skipn k l).
Proof.
  revert l; induction k as [|k IH]; intros l H; simpl; trivial.
  destruct l as [|a l]; trivial. apply IH. now inversion H.
Qed.

Lemma Forall_slice_last (P : A -> Prop) (n : nat) (l : list A) :
  Forall P l -> Forall P (slice_last n l).
Proof. apply Forall_skipn_of. Qed.

(** Cutting to the last [n >= 1] elements keeps the last one. *)
Lemma slice_last_snoc (n : nat) (l : list A) (a : A) :
  0 < n -> exists l', slice_last n (l ++ [a]) = l' ++ [a].
Proof.
  intros Hn. unfold slice_last. rewrite length_app. simpl.
  exists (skipn (length l + 1 - n) l).
  rewrite skipn_app.
  replace (length l + 1 - n - length l) with 0 by lia. reflexivity.
Qed.

End MoreArrayFacts.

Section MoreInvariants.

Context {num : Type} {N : Number num} {M : MathLib num}.
Local Open Scope num_scope.

(** A property of the bodies that every event keeps holds in every reachable
    state, once it is shown of the sun of a reset, of the body of a click and
    of each body after a frame. *)
Lemma bodies_invariant (P : Body num -> Prop) :
  (forall sz, P (sunAt sz)) ->
  (forall sun clickX clickY r1 r2 r3,
     P (newBody sun clickX clickY r1 r2 r3)) ->
  (forall ts bs i b, P b -> P (updateBody ts bs (i, b))) ->
  forall st e,
    Forall P (bodies st) -> Forall P (bodies (handle st e)).
Proof.
  intros Hsun Hnew Hupd st e H. destruct e; simpl; trivial.
  - unfold updatedBodies. apply Forall_map, Forall_forall.
    intros [i b] Hin. apply Hupd.
    rewrite Forall_forall in H. apply H.
    unfold indexed in Hin. now apply in_combine_r in Hin.
  - unfold handleCanvasClick.
    destruct (find (fun body => isSun body) (bodies st)); trivial.
    simpl. apply Forall_app. split; trivial.
    constructor; [apply Hnew|constructor].
  - constructor; [apply Hsun|constructor].
  - constructor; [apply Hsun|constructor].
Qed.

(** X1. In every reachable state the tail of a body is empty or ends with
    the position the body has: the trail that [simulate] strokes ends at the
    disk it draws. *)
Theorem tail_ends_at_body (st : State num) :
  reachable st ->
  Forall (fun b => tail b = [] \/ exists l, tail b = l ++ [position b])
    (bodies st).
Proof.
  intros H. induction H as [|st e _ IH].
  - constructor; [now left|constructor].
  - revert IH. apply bodies_invariant.
    + intros sz. now left.
    + intros. now left.
    + intros ts bs i b _. right. rewrite updateBody_tail.
      apply slice_last_snoc. unfold tailLength. lia.
Qed.

(** X2. In every reachable state all the points of the sun's tail are the
    sun's position: its trail is one point, repeated. *)
Theorem sun_tail_is_one_point (st : State num) :
  reachable st ->
  Forall (fun b => isSun b = true -> Forall (fun p => p = position b) (tail b))
    (bodies st).
Proof.
  intros H. induction H as [|st e _ IH].
  - constructor; [intros _; constructor|constructor].
  - revert IH. apply bodies_invariant.
    + intros sz _. constructor.
    + intros; discriminate.
    + intros ts bs i b Hb Hs.
      assert (Hs' : isSun b = true).
      { rewrite <- Hs. symmetry. apply updateBody_copies. }
      rewrite (updateBody_sun ts bs i b Hs'). simpl.
      apply Forall_slice_last, Forall_app. split.
      * exact (Hb Hs').
      * constructor; [reflexivity|constructor].
Qed.

(** X3. The number of bodies: a click adds one body, [handleReset] and a
    resize leave one, frames and the controls change nothing.  So the count
    shown as "Bodies:" is one more than the number of clicks since the last
    reset or resize. *)
Theorem bodies_counted (evs : list Event) :
  forall st : State num,
    length (filter (fun b => isSun b) (bodies st)) = 1 ->
    length (bodies (run evs st)) = count_bodies (length (bodies st)) evs.
Proof.
  induction evs as [|e evs IH]; intros st Hs; trivial.
  change (run (e :: evs) st) with (run evs (handle st e)).
  rewrite (IH _ (suns_handle st e Hs)).
  unfold count_bodies. simpl. f_equal.
  destruct e; simpl; trivial.
  - apply length_updatedBodies.
  - destruct (find_filter_one _ _ Hs) as [sun Hsun].
    unfold handleCanvasClick. rewrite Hsun. simpl.
    rewrite length_app. simpl. lia.
Qed.

Lemma size_handle (st : State num) (e : Event) :
  is_resize e = false -> size (handle st e) = size st.
Proof.
  destruct e; simpl; trivial; try discriminate.
  intros _. unfold handleCanvasClick.
  now destruct (find (fun body => isSun body) (bodies st)).
Qed.

(** X4. [handleReset] forgets everything but the size: after any events
    that are not resizes it gives the state it would have given before
    them. *)
Theorem reset_forgets (evs : list Event) :
  forall st : State num,
    forallb (fun e => negb (is_resize e)) evs = true ->
    handleReset (run evs st) = handleReset st.
Proof.
  induction evs as [|e evs IH]; intros st H; trivial.
  simpl in H. apply andb_prop in H. destruct H as [He H].
  change (run (e :: evs) st) with (run evs (handle st e)).
  rewrite (IH _ H). unfold handleReset.
  rewrite size_handle; trivial. now apply negb_true_iff.
Qed.

End MoreInvariants.
(** ** What is drawn *)

Section DrawingFacts.

Context {num : Type} {N : Number num} {M : MathLib num}.

Lemma paint_app (a b : list (CanvasOp num)) (ctx : Context2D num) :
  paint (a ++ b) ctx
  = (fst (paint b (fst (paint a ctx))),
     snd (paint a ctx) ++ snd (paint b (fst (paint a ctx)))).
Proof.
  revert ctx; induction a as [|op a IH]; intros ctx; simpl.
  - now destruct (paint b ctx).
  - destruct (perform ctx op) as [ctx1 painted1]. rewrite IH.
    destruct (paint a ctx1) as [ctx2 painted2]. simpl.
    now rewrite app_assoc.
Qed.

(** [lineTo] on the points of a list extends the one subpath there is. *)
Lemma paint_lines (l : list (Point num)) :
  forall (points : list (Point num)) (ctx : Context2D num),
    currentPath ctx = [Polyline points] ->
    paint (map (fun p => LineTo (px p) (py p)) l) ctx
    = ({| currentPath := [Polyline (points ++ l)];
          strokeStyle := strokeStyle ctx; lineWidth := lineWidth ctx;
          fillStyle := fillStyle ctx |}, []).
Proof.
  induction l as [|[a b] l IH]; intros points ctx Hp.
  - simpl. rewrite app_nil_r, <- Hp. now destruct ctx.
  - cbn [map paint perform px py]. rewrite Hp. cbn [lineTo].
    rewrite (IH (points ++ [{| px := a; py := b |}])) by reflexivity.
    cbn [strokeStyle lineWidth fillStyle app].
    now rewrite <- app_assoc.
Qed.

(** "Render tail" starts a path of its own and strokes the polyline through
    the tail. *)
Lemma paint_renderTail (b : Body num) (ctx : Context2D num) :
  snd (paint (renderTail b) ctx)
  = if 1 <? length (tail b) then [trail b] else [].
Proof.
  unfold renderTail, trail. destruct (1 <? length (tail b)) eqn:Hl; trivial.
  destruct (tail b) as [|[a0 b0] rest]; [discriminate Hl|].
  rewrite paint_app. cbn [paint perform fst snd app px py currentPath].
  rewrite paint_app.
  rewrite (paint_lines rest (points := [{| px := a0; py := b0 |}]))
    by reflexivity.
  reflexivity.
Qed.

(** "Render body" starts a path of its own and fills the disk. *)
Lemma paint_renderBody (b : Body num) (ctx : Context2D num) :
  snd (paint (renderBody b) ctx) = [disk b].
Proof. reflexivity. Qed.

Lemma paint_flat_map (f : Body num -> list (CanvasOp num))
    (g : Body num -> list (Painted num)) (bs : list (Body num)) :
  (forall b ctx, snd (paint (f b) ctx) = g b) ->
  forall ctx, snd (paint (flat_map f bs) ctx) = flat_map g bs.
Proof.
  intros H. induction bs as [|b bs IH]; intros ctx; trivial.
  cbn [flat_map]. rewrite paint_app. cbn [snd]. now rewrite H, IH.
Qed.

(** The tail of a body has two points or more after a frame exactly when it
    had a point before. *)
Lemma updateBody_has_trail (ts : num) (bs : list (Body num)) (i : nat)
    (b : Body num) :
  (1 <? length (tail (updateBody ts bs (i, b))))
  = negb (length (tail b) =? 0).
Proof.
  rewrite updateBody_tail, length_slice_last, length_app. cbn [length].
  unfold tailLength.
  destruct (Nat.eq_dec (length (tail b)) 0) as [H|H].
  - rewrite H. reflexivity.
  - replace (length (tail b) =? 0) with false
      by (symmetry; now apply Nat.eqb_neq).
    apply Nat.ltb_lt. lia.
Qed.



End DrawingFacts.

(** ** The pointer and the resize handle *)

Section DragFacts.

Context {num : Type} {N : Number num} {M : MathLib num}.

(** A move of a drag overrides the moves before it. *)
Lemma doDrag_se (start : DragStart num) (e e' : MouseEvent num)
    (st : State num) :
  doDrag "se" start e (doDrag "se" start e' st) = doDrag "se" start e st.
Proof. reflexivity. Qed.

Lemma fold_doDrag_se (start : DragStart num) (es : list (MouseEvent num)) :
  forall (e : MouseEvent num) (st : State num),
    fold_left (fun s e => doDrag "se" start e s) (es ++ [e]) st
    = doDrag "se" start e st.
Proof.
  induction es as [|e1 es IH]; intros e st; simpl; trivial.
  now rewrite IH, doDrag_se.
Qed.

Lemma fold_doDrag_other (direction : string) (start : DragStart num)
    (es : list (MouseEvent num)) (st : State num) :
  String.eqb direction "se" = false ->
  fold_left (fun s e => doDrag direction start e s) es st = st.
Proof.
  intros H. induction es as [|e es IH]; simpl; trivial.
  unfold doDrag at 2. now rewrite H.
Qed.

(** X8. A drag of the resize handle is absolute: after any moves the size
    is the size at mouse down plus the offset of the last move from the
    mouse-down point, whatever the moves before; the bodies are then the sun
    alone, at the center of that size, while [isRunning] and [timeScale] are
    kept.  A drag in a direction other than ['se'] changes nothing. *)
Theorem drag_is_absolute (event : MouseEvent num)
    (es : list (MouseEvent num)) (e : MouseEvent num) (st : State num) :
  let sz :=
    {| width := (width (size st) + clientX e - clientX event)%num;
       height := (height (size st) + clientY e - clientY event)%num |} in
  drag "se" event (es ++ [e]) st
  = {| bodies := [sunAt sz]; isRunning := isRunning st;
       timeScale := timeScale st; size := sz |}
  /\ forall direction,
       String.eqb direction "se" = false ->
       drag direction event (es ++ [e]) st = st.
Proof.
  intros sz. split.
  - unfold drag. now rewrite fold_doDrag_se.
  - intros direction H. unfold drag. now apply fold_doDrag_other.
Qed.

End DragFacts.
(** ** A body that feels no force *)

Section DriftFacts.

Import IEEE.
Local Open Scope float_scope.

(** Adding a zero changes no number, up to the sign of a zero. *)
Lemma SFadd_zero_r (a z : spec_float) (s : bool) :
  z = S754_zero s ->
  SFadd prec emax a z = a
  \/ exists s1 s2, a = S754_zero s1 /\ SFadd prec emax a z = S754_zero s2.
Proof.
  intros ->. destruct a as [sa|sa| |sa ma ea]; simpl; auto.
  right. exists sa. destruct sa, s; eauto.
Qed.

(** [a + 0 * c * ts] is [a] for a finite [ts]: equal as numbers, and not a
    number only when [a] is not. *)
Lemma add_zero_product (a c ts : float) :
  is_finite c = true ->
  is_finite ts = true ->
  is_nan a = false ->
  (a + 0 * c * ts =? a) = true.
Proof.
  intros Hc Hts Ha.
  rewrite eqb_spec, add_spec, !mul_spec.
  change (Prim2SF 0) with (S754_zero false).
  assert (Hz : exists s, SF64mul (SF64mul (S754_zero false) (Prim2SF c))
                           (Prim2SF ts) = S754_zero s).
  { destruct (finite_cases c Hc) as [[s ->]|(s & m & e & ->)];
      destruct (finite_cases ts Hts) as [[s' ->]|(s' & m' & e' & ->)];
      simpl; eauto. }
  destruct Hz as [s Hz].
  assert (Hn : Prim2SF a <> S754_nan).
  { intros E. unfold is_nan in Ha. rewrite eqb_spec, E in Ha.
    discriminate Ha. }
  unfold SF64add.
  destruct (SFadd_zero_r (Prim2SF a) Hz) as [->|(s1 & s2 & -> & ->)].
  - unfold SFeqb. now rewrite SFcompare_refl.
  - reflexivity.
Qed.

(** X13. A body that is not the sun and that overlaps every other body (the
    distance of the centers does not exceed the sum of the radii), or is
    alone, feels no force: the loop leaves its acceleration at [(0, 0)];
    for a finite time scale the frame leaves its velocity as it is (equal as
    numbers), and moves it by the velocity times [baseTimeStep] times
    [timeScale]. *)
Theorem overlapping_body_drifts (st : State float) (i : nat)
    (b : Body float) :
  nth_error (bodies st) i = Some b ->
  isSun b = false ->
  Forall (fun o => (radius b + radius o <? center_distance b o) = false)
    (firstn i (bodies st) ++ skipn (S i) (bodies st)) ->
  exists b',
    nth_error (bodies (simulate st)) i = Some b'
    /\ acceleration (bodies st) i b = (0, 0)
    /\ x b' = x b + vx b' * 0.02 * timeScale st
    /\ y b' = y b + vy b' * 0.02 * timeScale st
    /\ (is_finite (timeScale st) = true ->
        (is_nan (vx b) = false -> (vx b' =? vx b) = true)
        /\ (is_nan (vy b) = false -> (vy b' =? vy b) = true)).
Proof.
  intros Hi Hs Hov.
  exists (updateBody (timeScale st) (bodies st) (i, b)).
  split; [simpl; now rewrite nth_error_updatedBodies, Hi|].
  assert (Ha : acceleration (bodies st) i b = (0, 0)).
  { rewrite acceleration_others, others_firstn_skipn.
    change (literal 0) with 0.
    induction Hov as [|o l Ho _ IH]; trivial.
    cbn [fold_left]. rewrite attract_float. cbv zeta. now rewrite Ho. }
  split; [exact Ha|].
  destruct (updateBody_moves (timeScale st) (bodies st) i b Hs)
    as (Hvx & Hvy & Hx & Hy).
  cbv zeta in Hvx, Hvy, Hx, Hy. rewrite Ha in Hvx, Hvy.
  cbn [fst snd] in Hvx, Hvy.
  change (baseTimeStep (num := float)) with 0.02 in Hvx, Hvy, Hx, Hy.
  split; [exact Hx|]. split; [exact Hy|].
  intros Hts. split; intros Hn.
  - rewrite Hvx. now apply add_zero_product.
  - rewrite Hvy. now apply add_zero_product.
Qed.

End DriftFacts.

(** ** Masses and radii *)

Section SizeFacts.

Import IEEE Magnitude.
Local Open Scope float_scope.

Lemma pos_ge_positive (a : float) (j : Z) :
  pos_ge (Prim2SF a) j -> (0 <? a) = true.
Proof.
  rewrite ltb_spec. change (Prim2SF 0) with (S754_zero false).
  destruct (Prim2SF a) as [s|[|]| |[|] m e]; cbn [pos_ge];
    try contradiction; intros _; reflexivity.
Qed.

(** X16.  On binary64, when every draw of [Math.random] is in [[0, 1)],
    every body of every state that events reach from the mounted component
    has its mass in [[1, 1000]] and its radius in [[3, 15]]: [1 + r * 9] and
    [3 + r * 5] stay in range after rounding, and no handler changes a mass
    or a radius.  Masses and radii are therefore positive, whatever the
    clicks, the time scale and [Math.atan2], [Math.cos] and [Math.sin]
    are. *)
Theorem bodies_stay_in_range (M : MathLib float)
    (evs : list (@Event float)) :
  forallb fair evs = true ->
  forallb well_sized (bodies (run evs initialState)) = true
  /\ (forall b : Body float,
         In b (bodies (run evs initialState)) ->
         (1 <=? mass b) = true /\ (mass b <=? 1000) = true
         /\ (3 <=? radius b) = true /\ (radius b <=? 15) = true
         /\ (0 <? mass b) = true /\ (0 <? radius b) = true).
Proof.
  intros Hf.
  assert (Hw : forallb well_sized (bodies (run evs initialState)) = true)
    by (apply well_sized_run; [exact Hf|reflexivity]).
  split; [exact Hw|].
  intros b Hb. rewrite forallb_forall in Hw. specialize (Hw b Hb).
  unfold well_sized in Hw.
  apply andb_prop in Hw. destruct Hw as [Hw H4].
  apply andb_prop in Hw. destruct Hw as [Hw H3].
  apply andb_prop in Hw. destruct Hw as [H1 H2].
  repeat split; trivial.
  - apply (pos_ge_positive (mass b) 0).
    apply (leb_pos_ge 1); [exact one_pos_ge|exact H1].
  - apply (pos_ge_positive (radius b) 1).
    apply (leb_pos_ge 3); [exact three_pos_ge|exact H3].
Qed.

End SizeFacts.

(** ** The further results at concrete inputs *)

Section MoreExamples.

#[local] Existing Instance Demo.math_at_origin.
Local Open Scope float_scope.

(** X1 on a click followed by a frame. *)
Lemma tail_ends_at_body_witness :
  reachable Demo.orbiting
  /\ Forall (fun b => tail b = [] \/ exists l, tail b = l ++ [position b])
       (bodies Demo.orbiting).
Proof.
  split; [exact orbiting_reachable|].
  exact (@tail_ends_at_body float float_Number Demo.math_at_origin
           Demo.orbiting orbiting_reachable).
Defined.

(** X2 on the same state. *)
Lemma sun_tail_is_one_point_witness :
  reachable Demo.orbiting
  /\ Forall (fun b => isSun b = true ->
                      Forall (fun p => p = position b) (tail b))
       (bodies Demo.orbiting).
Proof.
  split; [exact orbiting_reachable|].
  exact (@sun_tail_is_one_point float float_Number Demo.math_at_origin
           Demo.orbiting orbiting_reachable).
Defined.

(** X3 on a session: one click, two bodies. *)
Lemma bodies_counted_witness :
  length (filter (fun b => isSun b) (bodies Demo.mounted)) = 1%nat
  /\ length (bodies (run (M := Demo.math_at_origin) Scene.session
                       Demo.mounted))
     = 2%nat.
Proof.
  split; [reflexivity|].
  exact (@bodies_counted float float_Number Demo.math_at_origin
           Scene.session Demo.mounted eq_refl).
Defined.

(** X4 on a session with a reset and two clicks. *)
Lemma reset_forgets_witness :
  forallb (fun e => negb (is_resize e)) Scene.play = true
  /\ handleReset (run Scene.play Demo.mounted) = handleReset Demo.mounted.
Proof.
  split; [reflexivity|].
  exact (@reset_forgets float float_Number Demo.math_at_origin Scene.play
           Demo.mounted eq_refl).
Defined.

(** X8 on a drag of the ['se'] handle with three moves, from the state with
    the planet: the size is 800 + 916 - 816 by 600 + 580 - 680, the planet
    is gone; and the same drag in another direction. *)
Lemma drag_is_absolute_witness :
  reachable Demo.orbiting
  /\ drag "se" Scene.grip ([Scene.move1; Scene.move2] ++ [Scene.move3])
       Demo.orbiting
     = {| bodies := [sunAt {| width := 900; height := 500 |}];
          isRunning := false; timeScale := 1;
          size := {| width := 900; height := 500 |} |}
  /\ String.eqb "nw" "se" = false
  /\ drag "nw" Scene.grip ([Scene.move1; Scene.move2] ++ [Scene.move3])
       Demo.orbiting
     = Demo.orbiting.
Proof.
  destruct (@drag_is_absolute float float_Number Scene.grip
              [Scene.move1; Scene.move2] Scene.move3 Demo.orbiting)
    as [Hse Hother].
  split; [exact orbiting_reachable|]. split; [|split].
  - rewrite Hse. vm_compute. reflexivity.
  - reflexivity.
  - exact (Hother "nw"%string eq_refl).
Defined.

(** X13 on the body of a click inside the disk of the sun, at time scale
    0.5: it keeps its speed of 80 and moves on. *)
Lemma overlapping_body_drifts_witness :
  bodies Scene.overlapping = [Demo.sun; Scene.inner]
  /\ vy Scene.inner = 80
  /\ nth_error (bodies Scene.overlapping) 1 = Some Scene.inner
  /\ isSun Scene.inner = false
  /\ Forall (fun o => (radius Scene.inner + radius o
                       <? IEEE.center_distance Scene.inner o) = false)
       (firstn 1 (bodies Scene.overlapping)
        ++ skipn 2 (bodies Scene.overlapping))
  /\ exists b',
       nth_error (bodies (simulate Scene.overlapping)) 1 = Some b'
       /\ acceleration (bodies Scene.overlapping) 1 Scene.inner = (0, 0)
       /\ y b' = 300 + vy b' * 0.02 * 0.5
       /\ (vy b' =? 80) = true.
Proof.
  assert (Hov : Forall (fun o => (radius Scene.inner + radius o
                                  <? IEEE.center_distance Scene.inner o)
                                 = false)
                  (firstn 1 (bodies Scene.overlapping)
                   ++ skipn 2 (bodies Scene.overlapping)))
    by (repeat constructor).
  split; [reflexivity|]. split; [vm_compute; reflexivity|].
  split; [reflexivity|]. split; [reflexivity|]. split; [exact Hov|].
  destruct (@overlapping_body_drifts Scene.overlapping 1%nat Scene.inner
              eq_refl eq_refl Hov)
    as (b' & Hn & Ha & _ & Hy & Hv).
  exists b'. split; [exact Hn|]. split; [exact Ha|]. split; [exact Hy|].
  exact (proj2 (Hv eq_refl) eq_refl).
Defined.



(** X16 on a session with two clicks and a reset. *)
Lemma bodies_stay_in_range_witness :
  forallb IEEE.fair Scene.play = true
  /\ length (bodies (run Scene.play initialState)) = 2%nat
  /\ forallb IEEE.well_sized (bodies (run Scene.play initialState)) = true
  /\ (forall b : Body float,
         In b (bodies (run Scene.play initialState)) ->
         (1 <=? mass b) = true /\ (mass b <=? 1000) = true
         /\ (3 <=? radius b) = true /\ (radius b <=? 15) = true
         /\ (0 <? mass b) = true /\ (0 <? radius b) = true).
Proof.
  split; [reflexivity|]. split; [reflexivity|].
  exact (@bodies_stay_in_range Demo.math_at_origin Scene.play eq_refl).
Defined.

End MoreExamples.
